(** * create_statistics.py : log analyzer and report renderer

    A shallow embedding of [analyze_torfs_output] and [generate_report]
    of [src/create_statistics.py], and the properties of the written
    specification that can be settled on it.

    Conventions of the embedding.
    - A log is the list of its lines, in file order; a line is a [string]
      whose characters are code points below 256 (an ASCII log is one).
    - A compiled pattern of the [re] module is a list of [rx_item]s and
      [search] is [re.search]: leftmost start, greedy repetition with
      backtracking.
    - Python integers read from the log are [N]; tallies and lengths are
      [nat].  [int] is total: the numerals of the log are taken to be
      within the length the interpreter converts.
    - [defaultdict]s are [gmap]s read with a default, [set]s are [gset]s.
    - The report is the list [output] of its lines, each a list of
      fragments; a float is its exact rational value, tagged with the
      precision it is printed with, so rounding and overflow of floats
      are not modelled.  A division by zero is the error
      [ZeroDivisionError]; writing the report to a file is left out. *)

From Stdlib Require Import String Ascii NArith List Bool QArith.
From stdpp Require Import gmap strings list fin_maps.

#[local] Set Warnings "-clear-no-such-hyp".

Local Open Scope string_scope.
Local Open Scope list_scope.

(* stdpp keeps [simpl] from unfolding string concatenation; the proofs
   below compute with it on literals. *)
#[local] Arguments String.append !_ _ : simpl nomatch.

(** ** Characters and character classes of [re] *)

(** [str.isspace] on one code point below 256, which is also what [\s]
    matches: TAB..CR, FS..US, space, NEL and NBSP. *)
Definition is_space (c : ascii) : bool :=
  let n := N_of_ascii c in
  (((9 <=? n) && (n <=? 13)) || ((28 <=? n) && (n <=? 32))
   || (n =? 133) || (n =? 160))%N.

(** [\d] on one code point below 256: the ten ASCII digits. *)
Definition is_digit (c : ascii) : bool :=
  let n := N_of_ascii c in ((48 <=? n) && (n <=? 57))%N.

(** [.] without DOTALL: anything but a line feed. *)
Definition is_dot (c : ascii) : bool :=
  negb (N_of_ascii c =? 10)%N.

Inductive cclass : Type :=
  | Digit      (* \d *)
  | NonSpace   (* \S *)
  | Dot.       (* .  *)

Definition in_class (k : cclass) (c : ascii) : bool :=
  match k with
  | Digit => is_digit c
  | NonSpace => negb (is_space c)
  | Dot => is_dot c
  end.

(** ** Patterns *)

(** The four patterns of the analyzer are sequences of literal characters
    and of greedy repetitions of one character class, some of them
    captured: [Rep k min cap] is [k*] for [min = 0] and [k+] for
    [min = 1], inside a capturing group when [cap] holds. *)
Inductive rx_item : Type :=
  | Lit (c : ascii)
  | Rep (k : cclass) (min : nat) (cap : bool).

Definition regex : Type := list rx_item.

Fixpoint lits (s : string) : regex :=
  match s with
  | EmptyString => []
  | String c s' => Lit c :: lits s'
  end.

Definition star (k : cclass) : rx_item := Rep k 0 false.
Definition group_plus (k : cclass) : rx_item := Rep k 1 true.

(** Greedy repetition: consume as many characters of the class as there
    are, and give characters back one at a time while the rest of the
    pattern, [cont], fails.  [acc] is what the repetition has consumed. *)
Fixpoint greedy (k : cclass) (min : nat) (cap : bool)
    (cont : string → option (list string))
    (acc : string) (s : string) : option (list string) :=
  let stop :=
    if (min <=? String.length acc)%nat then
      match cont s with
      | Some gs => Some (if cap then acc :: gs else gs)
      | None => None
      end
    else None in
  match s with
  | String c s' =>
      if in_class k c then
        match greedy k min cap cont (acc +:+ String c EmptyString) s' with
        | Some r => Some r
        | None => stop
        end
      else stop
  | EmptyString => stop
  end.

(** Match the pattern at the start of [s]; the result is the list of the
    captured groups, in order. *)
Fixpoint match_here (p : regex) (s : string) : option (list string) :=
  match p with
  | [] => Some []
  | Lit c :: p' =>
      match s with
      | String c' s' => if Ascii.eqb c c' then match_here p' s' else None
      | EmptyString => None
      end
  | Rep k min cap :: p' => greedy k min cap (match_here p') EmptyString s
  end.

(** [pattern.search(line)]: the match at the leftmost position that has
    one. *)
Fixpoint search (p : regex) (s : string) : option (list string) :=
  match match_here p s with
  | Some gs => Some gs
  | None =>
      match s with
      | EmptyString => None
      | String _ s' => search p s'
      end
  end.

(** [m.group(i)], for [i >= 1]. *)
Definition group (m : list string) (i : nat) : string :=
  nth (i - 1) m EmptyString.

(** [int(s)] on a string of decimal digits, which is all the analyzer
    applies it to (the groups it converts are [\d+]). *)
Definition digit_value (c : ascii) : N := (N_of_ascii c - 48)%N.

Fixpoint int_from (acc : N) (s : string) : N :=
  match s with
  | EmptyString => acc
  | String c s' => int_from (acc * 10 + digit_value c)%N s'
  end.

Definition int (s : string) : N := int_from 0%N s.

(** [s.endswith('*')] *)
Fixpoint endswith_star (s : string) : bool :=
  match s with
  | EmptyString => false
  | String c EmptyString => Ascii.eqb c "*"%char
  | String _ s' => endswith_star s'
  end.

(** [s.strip()] *)
Fixpoint lstrip (s : string) : string :=
  match s with
  | EmptyString => EmptyString
  | String c s' => if is_space c then lstrip s' else s
  end.

Fixpoint rstrip (s : string) : string :=
  match s with
  | EmptyString => EmptyString
  | String c s' =>
      match rstrip s' with
      | EmptyString => if is_space c then EmptyString else String c EmptyString
      | r => String c r
      end
  end.

Definition strip (s : string) : string := rstrip (lstrip s).

(** The [patterns] dictionary of [analyze_torfs_output]. *)
Module patterns.

(* \[.*\] Entering simulation epoch with consensus from *)
Definition epoch : regex :=
  Lit "["%char :: star Dot
    :: lits "] Entering simulation epoch with consensus from".

(* Total relays in consensus: (\d+), Valid/Running Guards: (\d+), Valid/Running Exits: (\d+) *)
Definition relay_stats : regex :=
  lits "Total relays in consensus: " ++ group_plus Digit
    :: lits ", Valid/Running Guards: " ++ group_plus Digit
    :: lits ", Valid/Running Exits: " ++ [group_plus Digit].

(* Total adversary guard relays: (\d+), Total adversary exit relays: (\d+) *)
Definition adv_stats : regex :=
  lits "Total adversary guard relays: " ++ group_plus Digit
    :: lits ", Total adversary exit relays: " ++ [group_plus Digit].

(* Client (\d+) uses the following circuit for a stream request: (\S+) (\S+) (\S+) *)
Definition circuit : regex :=
  lits "Client " ++ group_plus Digit
    :: lits " uses the following circuit for a stream request: "
    ++ group_plus NonSpace :: Lit " "%char
    :: group_plus NonSpace :: Lit " "%char :: [group_plus NonSpace].

End patterns.

(** ** The analyzer: [analyze_torfs_output] *)

(** The [relay_stats] dictionary: one record per snapshot. *)
Record snapshot : Type := mk_snapshot {
  total_relays : N;
  total_guards : N;
  total_exits : N;
  adv_guards : N;
  adv_exits : N
}.

Abbreviation circuit_id := (string * string * string)%type.
Abbreviation comp_type := (bool * bool * bool)%type.

(** The local variables of [analyze_torfs_output] that the loop over the
    lines reads and writes. *)
Record state : Type := mk_state {
  all_circuits : gset circuit_id;
  circuits_compromised : gmap comp_type nat;
  client_exposures : gmap N (gset comp_type);
  epoch_data : list snapshot;
  current_epoch : option string;
  relay_stats : snapshot
}.

Definition initial_state : state :=
  {| all_circuits := ∅;
     circuits_compromised := ∅;
     client_exposures := ∅;
     epoch_data := [];
     current_epoch := None;
     relay_stats := mk_snapshot 0 0 0 0 0 |}.

(** Truth value of [current_epoch]: [None] and the empty string are
    false. *)
Definition truthy (e : option string) : bool :=
  match e with
  | None => false
  | Some EmptyString => false
  | Some _ => true
  end.

(** [epoch_data.append(snap)] when an epoch is open. *)
Definition flush (st : state) : list snapshot :=
  if truthy (current_epoch st) then epoch_data st ++ [relay_stats st]
  else epoch_data st.

(** [d[k] += 1] on a [defaultdict(int)]. *)
Definition incr (k : comp_type) (d : gmap comp_type nat) : gmap comp_type nat :=
  <[k := default 0%nat (d !! k) + 1]> d.

(** [d[k].add(v)] on a [defaultdict(set)]. *)
Definition add_exposure (k : N) (v : comp_type)
    (d : gmap N (gset comp_type)) : gmap N (gset comp_type) :=
  <[k := default ∅ (d !! k) ∪ {[v]}]> d.

(** The circuit branch of the loop, once the client and the three relay
    names are read off the match: lines 65 to 80. *)
Definition track_circuit (st : state) (client_id : N)
    (circuit_id : circuit_id) : state :=
  let '(guard, middle, exit_relay) := circuit_id in
  let g_comp := endswith_star guard in
  let m_comp := endswith_star middle in
  let e_comp := endswith_star exit_relay in
  let is_compromised := g_comp || m_comp || e_comp in
  let comp_type := (g_comp, m_comp, e_comp) in
  let first_seen :=
    is_compromised && bool_decide (circuit_id ∉ all_circuits st) in
  {| all_circuits := all_circuits st ∪ {[circuit_id]};
     circuits_compromised :=
       if first_seen then incr comp_type (circuits_compromised st)
       else circuits_compromised st;
     client_exposures :=
       if first_seen
       then add_exposure client_id comp_type (client_exposures st)
       else client_exposures st;
     epoch_data := epoch_data st;
     current_epoch := current_epoch st;
     relay_stats := relay_stats st |}.

(** The body of the [for line in f] loop. *)
Definition process_line (st : state) (line : string) : state :=
  match search patterns.epoch line with
  | Some _ =>
      {| all_circuits := all_circuits st;
         circuits_compromised := circuits_compromised st;
         client_exposures := client_exposures st;
         epoch_data := flush st;
         current_epoch := Some (strip line);
         relay_stats := relay_stats st |}
  | None =>
  match search patterns.relay_stats line with
  | Some relay_match =>
      {| all_circuits := all_circuits st;
         circuits_compromised := circuits_compromised st;
         client_exposures := client_exposures st;
         epoch_data := epoch_data st;
         current_epoch := current_epoch st;
         relay_stats :=
           {| total_relays := int (group relay_match 1);
              total_guards := int (group relay_match 2);
              total_exits := int (group relay_match 3);
              adv_guards := adv_guards (relay_stats st);
              adv_exits := adv_exits (relay_stats st) |} |}
  | None =>
  match search patterns.adv_stats line with
  | Some adv_match =>
      {| all_circuits := all_circuits st;
         circuits_compromised := circuits_compromised st;
         client_exposures := client_exposures st;
         epoch_data := epoch_data st;
         current_epoch := current_epoch st;
         relay_stats :=
           {| total_relays := total_relays (relay_stats st);
              total_guards := total_guards (relay_stats st);
              total_exits := total_exits (relay_stats st);
              adv_guards := int (group adv_match 1);
              adv_exits := int (group adv_match 2) |} |}
  | None =>
  match search patterns.circuit line with
  | Some circuit_match =>
      let client_id := int (group circuit_match 1) in
      track_circuit st client_id
        (group circuit_match 2, group circuit_match 3, group circuit_match 4)
  | None => st
  end end end end.

(** The state when the input is exhausted. *)
Definition run (st : state) (lines : list string) : state :=
  fold_left process_line lines st.

(** The dictionary [analyze_torfs_output] returns. *)
Record results : Type := mk_results {
  total_circuits : nat;
  compromised_circuits : nat;
  circuit_counts : gmap comp_type nat;
  total_clients : N;
  compromised_clients : nat;
  client_counts : gmap comp_type nat;
  res_client_exposures : gmap N (gset comp_type);
  res_epoch_data : list snapshot
}.

(** [sum(d.values())] *)
Definition sum_values (d : gmap comp_type nat) : nat :=
  sum_list (map_to_list d).*2.

(** [max(d.keys())] of a dictionary that is not empty. *)
Definition max_key (d : gmap N (gset comp_type)) : N :=
  foldr N.max 0%N (map_to_list d).*1.

(** The two nested loops that fill [client_counts], over the compromise
    types in the order [tr] in which the loops meet them. *)
Definition count_types (tr : list comp_type) : gmap comp_type nat :=
  fold_left (λ d t, incr t d) tr ∅.

(** The order in which the loops meet the compromise types: the exposure
    sets client by client, each set in its iteration order. *)
Definition traversal (d : gmap N (gset comp_type)) : list comp_type :=
  mjoin (elements <$> (map_to_list d).*2).

Definition finish (st : state) (tr : list comp_type) : results :=
  {| total_circuits := size (all_circuits st);
     compromised_circuits := sum_values (circuits_compromised st);
     circuit_counts := circuits_compromised st;
     total_clients :=
       if decide (client_exposures st = ∅) then 0%N
       else (max_key (client_exposures st) + 1)%N;
     compromised_clients := size (client_exposures st);
     client_counts := count_types tr;
     res_client_exposures := client_exposures st;
     res_epoch_data := flush st |}.

Definition analyze_torfs_output (lines : list string) : results :=
  let st := run initial_state lines in
  finish st (traversal (client_exposures st)).

(** ** The renderer: [generate_report] *)

Inductive exn : Type := ZeroDivisionError.

(** A computation that returns a value or raises. *)
Definition result (A : Type) : Type := (exn + A)%type.

#[export] Instance result_ret : MRet result := λ A x, inr x.
#[export] Instance result_bind : MBind result :=
  λ A B f x, match x with inl e => inl e | inr a => f a end.

Definition raise {A : Type} (e : exn) : result A := inl e.

(** [a / b] on two integers: the exact quotient, or the error. *)
Definition int_div (a b : Z) : result Q :=
  if (b =? 0)%Z then raise ZeroDivisionError
  else mret (Qmake a (Z.to_pos b)).

(** [x / y] on two floats. *)
Definition float_div (x y : Q) : result Q :=
  if Qeq_bool y 0 then raise ZeroDivisionError else mret (x / y)%Q.

(** One piece of an f-string: literal text, an integer, a float under
    [:.<d>f] or under [:.<d>%]. *)
Inductive fragment : Type :=
  | Text (s : string)
  | Int (n : Z)
  | Fixed (digits : nat) (x : Q)
  | Percent (digits : nat) (x : Q).

(** One element of [output]. *)
Definition out_line : Type := list fragment.

Definition nl : string := String "010"%char EmptyString.

Definition all_combinations : list comp_type :=
  [ (true, false, false);   (* guard *)
    (false, true, false);   (* middle *)
    (false, false, true);   (* exit *)
    (true, true, false);    (* guard+middle *)
    (true, false, true);    (* guard+exit *)
    (false, true, true);    (* middle+exit *)
    (true, true, true) ].   (* all three *)

Definition describe_compromise (combo : comp_type) : string :=
  let '(g, m, e) := combo in
  let parts :=
    (if g then ["guard"] else []) ++ (if m then ["middle"] else [])
      ++ (if e then ["exit"] else []) in
  match parts with
  | [] => "none"
  | _ => String.concat "+" parts
  end.

(** [d.get(combo, 0)] *)
Definition get0 (d : gmap comp_type nat) (combo : comp_type) : nat :=
  default 0%nat (d !! combo).

(** The [for combo in all_combinations] loop of a breakdown: one row per
    combination with a positive count, its share taken of [whole]. *)
Fixpoint breakdown (unit : string) (d : gmap comp_type nat) (whole : Z)
    (combos : list comp_type) : result (list out_line) :=
  match combos with
  | [] => mret []
  | combo :: combos' =>
      let count := get0 d combo in
      if (0 <? count)%nat then
        share ← int_div (Z.of_nat count) whole;
        rows ← breakdown unit d whole combos';
        mret ([Text " - "; Text (describe_compromise combo); Text ": ";
               Int (Z.of_nat count); Text unit; Text " (";
               Percent 2 share; Text ")"] :: rows)
      else breakdown unit d whole combos'
  end.

Definition circuit_section (r : results) : result (list out_line) :=
  let total := Z.of_nat (total_circuits r) in
  let compromised := Z.of_nat (compromised_circuits r) in
  share ← int_div compromised total;
  rows ←
    (if (0 <? compromised)%Z then
       rows ← breakdown " circuits" (circuit_counts r) compromised
                all_combinations;
       mret ([Text (nl +:+ "COMPROMISED CIRCUIT BREAKDOWN:")] :: rows)
     else mret []);
  mret ([Text "CIRCUIT STATISTICS"] :: [Text "=================="]
        :: [Text "Total unique circuits: "; Int total]
        :: [Text "Compromised circuits: "; Int compromised; Text " (";
            Percent 2 share; Text ")"]
        :: rows).

(** [sum(1 for exp in d.values() if len(exp) > 1)] *)
Definition multi_exposure (d : gmap N (gset comp_type)) : nat :=
  length (filter (λ exp : gset comp_type, 1 < size exp) (map_to_list d).*2).

Definition client_section (r : results) : result (list out_line) :=
  let total := Z.of_N (total_clients r) in
  let compromised := Z.of_nat (compromised_clients r) in
  share ← int_div compromised total;
  rows ←
    (if (0 <? compromised)%Z then
       rows ← breakdown " clients" (client_counts r) total all_combinations;
       let multi := Z.of_nat (multi_exposure (res_client_exposures r)) in
       more ←
         (if (0 <? multi)%Z then
            share ← int_div multi compromised;
            mret [[Text (nl +:+ "Clients with multiple exposure types: ");
                   Int multi; Text " ("; Percent 2 share; Text ")"]]
          else mret []);
       mret ([Text (nl +:+ "COMPROMISE TYPES USED BY CLIENTS:")]
             :: rows ++ more)
     else mret []);
  mret ([Text (nl +:+ "CLIENT STATISTICS")] :: [Text "================"]
        :: [Text "Total clients: "; Int total]
        :: [Text "Clients using compromised circuits: "; Int compromised;
            Text " ("; Percent 2 share; Text ")"]
        :: rows).

(** [sum(e[field] for e in epoch_data)] *)
Definition sum_field (field : snapshot → N) (l : list snapshot) : Z :=
  Z.of_N (foldr N.add 0%N (field <$> l)).

Definition relay_section (r : results) : result (list out_line) :=
  match res_epoch_data r with
  | [] => mret []
  | _ =>
      let num_epochs := Z.of_nat (length (res_epoch_data r)) in
      avg_total ← int_div (sum_field total_relays (res_epoch_data r)) num_epochs;
      avg_guards ← int_div (sum_field total_guards (res_epoch_data r)) num_epochs;
      avg_exits ← int_div (sum_field total_exits (res_epoch_data r)) num_epochs;
      avg_adv_guards ← int_div (sum_field adv_guards (res_epoch_data r)) num_epochs;
      avg_adv_exits ← int_div (sum_field adv_exits (res_epoch_data r)) num_epochs;
      guards_share ← float_div avg_guards avg_total;
      exits_share ← float_div avg_exits avg_total;
      adv_guards_share ← float_div avg_adv_guards avg_guards;
      adv_exits_share ← float_div avg_adv_exits avg_exits;
      mret [ [Text (nl +:+ "RELAY STATISTICS")]; [Text "================"];
             [Text "Number of epochs (started hours): "; Int num_epochs];
             [Text (nl +:+ "Average across all epochs:")];
             [Text " - Total relays: "; Fixed 1 avg_total];
             [Text " - Guard relays: "; Fixed 1 avg_guards; Text " (";
              Percent 1 guards_share; Text " of total)"];
             [Text " - Exit relays: "; Fixed 1 avg_exits; Text " (";
              Percent 1 exits_share; Text " of total)"];
             [Text " - Adversary guards: "; Fixed 1 avg_adv_guards; Text " (";
              Percent 1 adv_guards_share; Text " of guards)"];
             [Text " - Adversary exits: "; Fixed 1 avg_adv_exits; Text " (";
              Percent 1 adv_exits_share; Text " of exits)"] ]
  end.

(** The list [output] when [generate_report] returns; the report is its
    lines joined by line feeds. *)
Definition generate_report (r : results) : result (list out_line) :=
  circuits ← circuit_section r;
  clients ← client_section r;
  relays ← relay_section r;
  mret (circuits ++ clients ++ relays).

(** * Vocabulary of the claims *)

(** ** Matches *)

(** Every character of [w] is in the class [k]. *)
Fixpoint all_in (k : cclass) (w : string) : bool :=
  match w with
  | EmptyString => true
  | String c w' => in_class k c && all_in k w'
  end.

(** The strings a pattern matches from their first to their last
    character: literals match themselves, a repetition matches at least
    [min] characters of its class. *)
Inductive matches : regex → string → Prop :=
  | matches_nil : matches [] EmptyString
  | matches_lit c p w : matches p w → matches (Lit c :: p) (String c w)
  | matches_rep k min cap p w1 w2 :
      all_in k w1 = true → (min ≤ String.length w1)%nat → matches p w2 →
      matches (Rep k min cap :: p) (w1 +:+ w2).

(** ** Kinds of lines *)

(** The test [if patterns['epoch'].search(line)] of the loop. *)
Definition is_marker (line : string) : bool :=
  match search patterns.epoch line with Some _ => true | None => false end.

(** [t in s] *)
Definition contains (t s : string) : Prop := ∃ a c, s = a +:+ t +:+ c.

(** Some character of [s] is not white space. *)
Fixpoint has_nonspace (s : string) : bool :=
  match s with
  | EmptyString => false
  | String c s' => negb (is_space c) || has_nonspace s'
  end.

(** Number of epoch-marker lines of a log. *)
Fixpoint markers (lines : list string) : nat :=
  match lines with
  | [] => 0
  | line :: lines' => (if is_marker line then 1 else 0) + markers lines'
  end.

(** [p.search(line)] is a match. *)
Definition matched (p : regex) (line : string) : bool :=
  match search p line with Some _ => true | None => false end.

(** A relay-count line: one the loop handles in its second branch. *)
Definition is_relay_count (line : string) : bool :=
  negb (is_marker line) && matched patterns.relay_stats line.

(** An adversary-count line: one the loop handles in its third branch. *)
Definition is_adv_count (line : string) : bool :=
  negb (is_marker line) && negb (matched patterns.relay_stats line)
  && matched patterns.adv_stats line.

(** A line that reports no counts. *)
Definition no_counts (line : string) : Prop :=
  is_relay_count line = false ∧ is_adv_count line = false.

(** A line inside an epoch's span that reports no counts. *)
Definition quiet (line : string) : Prop :=
  is_marker line = false ∧ no_counts line.

(** What may follow an epoch's span: the end of the input or the next
    marker. *)
Definition closes_span (rest : list string) : Prop :=
  rest = [] ∨ ∃ m rest', rest = m :: rest' ∧ is_marker m = true.

(** The [relay_stats] dictionary before the first line. *)
Definition zero_snapshot : snapshot := mk_snapshot 0 0 0 0 0.

(** A circuit-usage line: one the loop handles in its fourth branch, with
    the client and the circuit identity it carries. *)
Definition circuit_of (line : string) : option (N * circuit_id) :=
  if is_marker line || matched patterns.relay_stats line
     || matched patterns.adv_stats line then None
  else
    match search patterns.circuit line with
    | Some m => Some (int (group m 1), (group m 2, group m 3, group m 4))
    | None => None
    end.

(** ** Circuits and exposure *)

(** The adversarial marker in some position of the identity. *)
Definition compromised (id : circuit_id) : bool :=
  endswith_star id.1.1 || endswith_star id.1.2 || endswith_star id.2.

(** The compromise vector of an identity. *)
Definition vector (id : circuit_id) : comp_type :=
  (endswith_star id.1.1, endswith_star id.1.2, endswith_star id.2).

(** The distinct circuit identities on the circuit-usage lines. *)
Definition identities (lines : list string) : gset circuit_id :=
  list_to_set (omap circuit_of lines).*2.

(** Line [i] is a circuit-usage line of client [c] that shows a compromised
    identity for the first time, and [v] is its vector. *)
Definition exposed_at (lines : list string) (i : nat) (c : N) (v : comp_type) : Prop :=
  ∃ line id,
    lines !! i = Some line ∧ circuit_of line = Some (c, id)
    ∧ compromised id = true ∧ vector id = v
    ∧ id ∉ identities (take i lines).

(** Client [c] is exposed to the vector [v] by some line of the log. *)
Definition exposed (lines : list string) (c : N) (v : comp_type) : Prop :=
  ∃ i, exposed_at lines i c v.

(** The eight compromise vectors. *)
Definition all_vectors : list comp_type := (false, false, false) :: all_combinations.

(** Summing all eight readings of a tally with default zero. *)
Definition sum_over (vs : list comp_type) (d : gmap comp_type nat) : nat :=
  sum_list (get0 d <$> vs).

(** ** Runs of the analysis *)

(** Python leaves the order in which a set yields its elements open.
    [iterates X order] holds of every order in which [X] may yield them:
    each element once. *)
Definition iterates (X : gset comp_type) (order : list comp_type) : Prop :=
  NoDup order ∧ ∀ v, v ∈ order ↔ v ∈ X.

(** The sequences of compromise types that the two loops over
    [client_exposures.values()] may meet. *)
Definition visits (d : gmap N (gset comp_type)) (tr : list comp_type) : Prop :=
  ∃ sets orders,
    sets ≡ₚ (map_to_list d).*2 ∧ Forall2 iterates sets orders
    ∧ tr = mjoin orders.

(** [analysis lines r]: a run of [analyze_torfs_output] on [lines] may
    return [r]. *)
Definition analysis (lines : list string) (r : results) : Prop :=
  ∃ tr, visits (client_exposures (run initial_state lines)) tr
        ∧ r = finish (run initial_state lines) tr.

(** ** Scenarios of the specification *)

(** A line as the iteration over the file yields it, with its line feed. *)
Definition line_feed (line : string) : string := line +:+ nl.

(** Scenario B of the specification: one compromised circuit of client 3;
    scenario C repeats its line. *)
Definition scenario_B : list string :=
  ["Client 3 uses the following circuit for a stream request: G1* M1 X1"].

Definition scenario_C : list string := scenario_B ++ scenario_B.

(** Scenario D: two epochs, each with a relay-count and an
    adversary-count line. *)
Definition scenario_D : list string :=
  [ "[00:00] Entering simulation epoch with consensus from 2020-01-01";
    "Total relays in consensus: 6000, Valid/Running Guards: 2000, Valid/Running Exits: 900";
    "Total adversary guard relays: 3, Total adversary exit relays: 1";
    "[01:00] Entering simulation epoch with consensus from 2020-01-02";
    "Total relays in consensus: 6100, Valid/Running Guards: 2100, Valid/Running Exits: 950";
    "Total adversary guard relays: 3, Total adversary exit relays: 1" ].

(** ** What a match captures *)

(** [captures p w rest gs]: the pattern matches [w], followed in the input
    by [rest], and captures [gs].  A repetition that ends the pattern is
    greedy to the end: no character of its class follows it. *)
Inductive captures : regex → string → string → list string → Prop :=
  | captures_nil rest : captures [] EmptyString rest []
  | captures_lit c p w rest gs :
      captures p w rest gs → captures (Lit c :: p) (String c w) rest gs
  | captures_rep k min cap p w1 w2 rest gs :
      all_in k w1 = true → (min ≤ String.length w1)%nat →
      captures p w2 rest gs →
      (p = [] → ∀ c rest', rest = String c rest' → in_class k c = false) →
      captures (Rep k min cap :: p) (w1 +:+ w2) rest
        (if cap then w1 :: gs else gs).

(** A decimal numeral: what [\d+] captures. *)
Definition numeral (w : string) : Prop :=
  w ≠ EmptyString ∧ all_in Digit w = true.

(** A relay name: what [\S+] captures. *)
Definition token (w : string) : Prop :=
  w ≠ EmptyString ∧ all_in NonSpace w = true.

(** The input ends or goes on with white space. *)
Definition at_token_end (rest : string) : Prop :=
  match rest with
  | EmptyString => True
  | String c _ => is_space c = true
  end.

(** ** Parts of the log and of the state *)

(** Some pattern of the analyzer matches the line. *)
Definition relevant (line : string) : bool :=
  is_marker line || matched patterns.relay_stats line
  || matched patterns.adv_stats line || matched patterns.circuit line.

(** The line is a circuit-usage line. *)
Definition is_circuit_line (line : string) : bool :=
  match circuit_of line with Some _ => true | None => false end.

(** What the circuit branch of the loop reads and writes. *)
Definition circuit_part (st : state) :
    gset circuit_id * gmap comp_type nat * gmap N (gset comp_type) :=
  (all_circuits st, circuits_compromised st, client_exposures st).

(** What the other three branches read and write. *)
Definition epoch_part (st : state) : list snapshot * option string * snapshot :=
  (epoch_data st, current_epoch st, relay_stats st).

(** ** Clients per compromise type *)

(** Number of clients whose exposure set holds [v]. *)
Definition exposed_to (d : gmap N (gset comp_type)) (v : comp_type) : nat :=
  length (filter (λ X : gset comp_type, v ∈ X) (map_to_list d).*2).

(** ** Shares of a breakdown *)

(** The floats printed as percentages in the rows of a report. *)
Definition percents (row : out_line) : list Q :=
  omap (λ f, match f with Percent _ x => Some x | _ => None end) row.

Definition shares (rows : list out_line) : list Q := mjoin (percents <$> rows).


(** A share between 0% and 100%. *)
Definition proper_share (q : Q) : Prop := (0 <= q)%Q ∧ (q <= 1)%Q.

(** * Properties *)

(** ** What a pattern matches *)

Section Regex.

Lemma append_assoc (a b c : string) : (a +:+ b) +:+ c = a +:+ b +:+ c.
Proof. induction a as [|x a IH]; simpl; [done | by f_equal]. Qed.

Lemma append_nil_r (a : string) : a +:+ EmptyString = a.
Proof. induction a as [|x a IH]; simpl; [done | by f_equal]. Qed.

Lemma length_snoc (a : string) (c : ascii) :
  String.length (a +:+ String c EmptyString) = S (String.length a).
Proof. induction a as [|x a IH]; simpl; [done | by f_equal]. Qed.

Lemma append_eq_nil (a b : string) :
  a +:+ b = EmptyString → a = EmptyString ∧ b = EmptyString.
Proof. destruct a; simpl; [done | discriminate]. Qed.

Lemma greedy_Some k min cap cont acc s :
  is_Some (greedy k min cap cont acc s) ↔
  ∃ w r, s = w +:+ r ∧ all_in k w = true
         ∧ (min ≤ String.length acc + String.length w)%nat
         ∧ is_Some (cont r).
Proof.
  revert acc. induction s as [|c s IH]; intros acc.
  - simpl. split.
    + destruct (Nat.leb_spec min (String.length acc)) as [Hle|]; [|by intros []].
      intros Hc. exists EmptyString, EmptyString. simpl.
      repeat split; [lia|]. destruct (cont EmptyString); [done | by destruct Hc].
    + intros (w & r & Hs & _ & Hmin & Hc).
      symmetry in Hs. apply append_eq_nil in Hs as [-> ->]. simpl in Hmin.
      destruct (Nat.leb_spec min (String.length acc)); [|lia].
      destruct Hc as [gs ->]. done.
  - cbn [greedy].
    set (stop := if (min <=? String.length acc)%nat then _ else None).
    assert (Hstop : is_Some stop ↔
              (min ≤ String.length acc)%nat ∧ is_Some (cont (String c s))).
    { subst stop. destruct (Nat.leb_spec min (String.length acc)).
      - destruct (cont (String c s)); split; try done. by intros [_ ?].
      - split; [by intros [] | lia]. }
    split.
    + intros Hg.
      assert (Hcase : (in_class k c = true
                ∧ is_Some (greedy k min cap cont (acc +:+ String c EmptyString) s))
              ∨ is_Some stop).
      { destruct (in_class k c); [|by right].
        destruct (greedy k min cap cont _ s); [left | right]; done. }
      destruct Hcase as [[Hk Hrec] | Hst].
      * apply IH in Hrec as (w & r & -> & Hw & Hmin & Hc).
        exists (String c w), r. simpl. rewrite Hk, Hw.
        rewrite length_snoc in Hmin. repeat split; [lia | done].
      * apply Hstop in Hst as [Hmin Hc].
        exists EmptyString, (String c s). simpl. repeat split; [lia | done].
    + intros (w & r & Hs & Hw & Hmin & Hc). destruct w as [|c' w].
      * simpl in Hs, Hmin. subst r.
        assert (Hst : is_Some stop) by (apply Hstop; split; [lia | done]).
        destruct (in_class k c); [|done].
        by destruct (greedy k min cap cont _ s).
      * simpl in Hs, Hw, Hmin. injection Hs as <- ->.
        apply andb_true_iff in Hw as [Hk Hw]. rewrite Hk.
        assert (Hrec : is_Some
                  (greedy k min cap cont (acc +:+ String c EmptyString) (w +:+ r))).
        { apply IH. exists w, r. rewrite length_snoc.
          repeat split; [done | lia | done]. }
        destruct Hrec as [x ->]. done.
Qed.

Lemma match_here_Some p s :
  is_Some (match_here p s) ↔ ∃ w r, s = w +:+ r ∧ matches p w.
Proof.
  revert s. induction p as [|[c|k min cap] p IH]; intros s.
  - simpl. split; [|done]. intros _. exists EmptyString, s. split; [done | constructor].
  - simpl. split.
    + destruct s as [|c' s]; [by intros []|].
      destruct (Ascii.eqb_spec c c') as [<-|]; [|by intros []].
      intros (w & r & -> & Hm)%IH. exists (String c w), r. split; [done | by constructor].
    + intros (w & r & -> & Hm). inversion Hm; subst. simpl.
      rewrite Ascii.eqb_refl. apply IH. eauto.
  - simpl. rewrite greedy_Some. split.
    + intros (w & r & -> & Hw & Hmin & (w2 & r2 & -> & Hm)%IH).
      exists (w +:+ w2), r2. rewrite append_assoc. split; [done|].
      constructor; [done | simpl in Hmin; lia | done].
    + intros (w & r & -> & Hm). inversion Hm; subst.
      exists w1, (w2 +:+ r). rewrite append_assoc.
      repeat split; [done | simpl; lia |]. apply IH. eauto.
Qed.

Lemma search_Some p s :
  is_Some (search p s) ↔ ∃ a w r, s = a +:+ w +:+ r ∧ matches p w.
Proof.
  induction s as [|c s IH].
  - simpl. split.
    + destruct (match_here p EmptyString) eqn:E; [|by intros []].
      intros _. assert (H : is_Some (match_here p EmptyString)) by (rewrite E; done).
      apply match_here_Some in H as (w & r & Hs & Hm).
      exists EmptyString, w, r. done.
    + intros (a & w & r & Hs & Hm).
      symmetry in Hs. apply append_eq_nil in Hs as [-> Hs]. simpl in Hs.
      assert (H : is_Some (match_here p EmptyString))
        by (apply match_here_Some; exists w, r; rewrite Hs; done).
      destruct H as [x ->]. done.
  - simpl. split.
    + destruct (match_here p (String c s)) eqn:E.
      * intros _. assert (H : is_Some (match_here p (String c s))) by (rewrite E; done).
        apply match_here_Some in H as (w & r & Hs & Hm).
        exists EmptyString, w, r. done.
      * intros (a & w & r & -> & Hm)%IH. exists (String c a), w, r. done.
    + intros (a & w & r & Hs & Hm). destruct a as [|c' a].
      * simpl in Hs.
        assert (H : is_Some (match_here p (String c s)))
          by (apply match_here_Some; exists w, r; done).
        destruct H as [x ->]. done.
      * simpl in Hs. injection Hs as <- ->.
        destruct (match_here p _); [done|]. apply IH. eauto.
Qed.

Lemma matches_lits t w : matches (lits t) w ↔ w = t.
Proof.
  revert w. induction t as [|c t IH]; intros w; simpl.
  - split; [by inversion 1 | intros ->; constructor].
  - split.
    + inversion 1; subst. f_equal. by apply IH.
    + intros ->. constructor. by apply IH.
Qed.

(** The strings the epoch pattern matches. *)
Lemma matches_epoch w :
  matches patterns.epoch w ↔
  ∃ b, all_in Dot b = true ∧
       w = "[" +:+ b +:+ "] Entering simulation epoch with consensus from".
Proof.
  unfold patterns.epoch, star. split.
  - inversion 1 as [|? ? ? Hrep|]; subst.
    inversion Hrep as [| |? ? ? ? ? ? Hb _ Hl]; subst.
    apply (matches_lits "] Entering simulation epoch with consensus from")
      in Hl as ->. eauto.
  - intros (b & Hb & ->). constructor.
    constructor; [done | lia |].
    by apply (matches_lits "] Entering simulation epoch with consensus from").
Qed.

End Regex.

(** ** The patterns on lines of the log *)

Example search_circuit_line :
  search patterns.circuit
    (line_feed "Client 3 uses the following circuit for a stream request: G1* M1 X1")
  = Some ["3"; "G1*"; "M1"; "X1"].
Proof. reflexivity. Qed.

Example search_circuit_needs_single_spaces :
  search patterns.circuit
    "Client 3 uses the following circuit for a stream request: G1*  M1 X1"
  = None.
Proof. reflexivity. Qed.

Example search_relay_stats_line :
  search patterns.relay_stats
    "Total relays in consensus: 6000, Valid/Running Guards: 020, Valid/Running Exits: 7"
  = Some ["6000"; "020"; "7"]
  ∧ int "020" = 20%N.
Proof. split; reflexivity. Qed.

Example search_epoch_backtracks :
  search patterns.epoch "x [a] b] Entering simulation epoch with consensus from y"
  = Some [].
Proof. reflexivity. Qed.

Example strip_marker_line :
  strip (line_feed "  [00:00] Entering simulation epoch ") =
  "[00:00] Entering simulation epoch".
Proof. reflexivity. Qed.

(** ** Epoch markers *)

Section Markers.

Lemma is_marker_Some line : is_marker line = true ↔ is_Some (search patterns.epoch line).
Proof.
  unfold is_marker. destruct (search patterns.epoch line); split; try done.
Qed.

Lemma is_marker_iff line :
  is_marker line = true ↔
  ∃ a b c, all_in Dot b = true ∧
    line = a +:+ "[" +:+ b
             +:+ "] Entering simulation epoch with consensus from" +:+ c.
Proof.
  rewrite is_marker_Some, search_Some. split.
  - intros (a & w & r & -> & (b & Hb & ->)%matches_epoch).
    exists a, b, r. split; [done|]. simpl. by rewrite append_assoc.
  - intros (a & b & c & Hb & ->).
    exists a, ("[" +:+ b +:+ "] Entering simulation epoch with consensus from"), c.
    split; [simpl; by rewrite append_assoc|].
    apply matches_epoch. eauto.
Qed.

Lemma has_nonspace_app a c r :
  is_space c = false → has_nonspace (a +:+ String c r) = true.
Proof.
  intros Hc. induction a as [|x a IH]; simpl.
  - by rewrite Hc.
  - rewrite IH. apply orb_true_r.
Qed.

Lemma lstrip_nonspace s :
  has_nonspace s = true → ∃ c r, lstrip s = String c r ∧ is_space c = false.
Proof.
  induction s as [|x s IH]; simpl; [done|].
  destruct (is_space x) eqn:E; simpl; [done | eauto].
Qed.

Lemma rstrip_cons c r : is_space c = false → rstrip (String c r) ≠ EmptyString.
Proof. intros Hc. simpl. rewrite Hc. by destruct (rstrip r). Qed.

(** The stripped text of a marker line is a true value: the line holds
    at least its bracket. *)
Lemma marker_truthy line : is_marker line = true → truthy (Some (strip line)) = true.
Proof.
  intros (a & b & c & _ & ->)%is_marker_iff.
  destruct (lstrip_nonspace (a +:+ "[" +:+ b
             +:+ "] Entering simulation epoch with consensus from" +:+ c))
    as (x & r & Hl & Hx).
  { by apply has_nonspace_app. }
  unfold strip. rewrite Hl. pose proof (rstrip_cons x r Hx) as Hne.
  unfold truthy. by destruct (rstrip (String x r)).
Qed.

Lemma process_marker st line :
  is_marker line = true →
  process_line st line =
    {| all_circuits := all_circuits st;
       circuits_compromised := circuits_compromised st;
       client_exposures := client_exposures st;
       epoch_data := flush st;
       current_epoch := Some (strip line);
       relay_stats := relay_stats st |}.
Proof.
  unfold is_marker, process_line.
  by destruct (search patterns.epoch line).
Qed.

Lemma process_not_marker st line :
  is_marker line = false →
  epoch_data (process_line st line) = epoch_data st
  ∧ current_epoch (process_line st line) = current_epoch st.
Proof.
  unfold is_marker, process_line.
  destruct (search patterns.epoch line); [done|]. intros _.
  destruct (search patterns.relay_stats line); [done|].
  destruct (search patterns.adv_stats line); [done|].
  by destruct (search patterns.circuit line).
Qed.

End Markers.

(** ** Epochs and snapshots *)

Section Epochs.

Lemma run_app st a b : run st (a ++ b) = run (run st a) b.
Proof. apply fold_left_app. Qed.

Lemma run_snoc st l x : run st (l ++ [x]) = process_line (run st l) x.
Proof. by rewrite run_app. Qed.

Lemma run_cons st x l : run st (x :: l) = run (process_line st x) l.
Proof. done. Qed.

Lemma markers_app a b : markers (a ++ b) = markers a + markers b.
Proof. induction a as [|x a IH]; simpl; [done | rewrite IH; lia]. Qed.

(** After any prefix of the log: no marker yet, nothing stored and no
    epoch open; otherwise an epoch is open and one snapshot fewer than
    markers is stored. *)
Lemma run_epoch_state lines :
  let st := run initial_state lines in
  (markers lines = 0 → epoch_data st = [] ∧ current_epoch st = None)
  ∧ (0 < markers lines →
     truthy (current_epoch st) = true
     ∧ S (length (epoch_data st)) = markers lines).
Proof.
  induction lines as [|x l IH] using rev_ind; simpl.
  - split; [done | lia].
  - rewrite run_snoc, markers_app. simpl. destruct IH as [IH0 IH1].
    destruct (is_marker x) eqn:Hx.
    + rewrite (process_marker _ _ Hx). simpl. split; [lia|]. intros _.
      split; [by apply marker_truthy|].
      unfold flush. destruct (markers l) as [|k] eqn:Hk.
      * destruct IH0 as [-> ->]; done.
      * destruct IH1 as [-> Hlen]; [lia|]. rewrite length_app. simpl. lia.
    + destruct (process_not_marker (run initial_state l) x Hx) as [-> ->].
      split; intros; [apply IH0 | destruct IH1 as [? ?]]; try lia.
      split; [done | lia].
Qed.

Lemma flush_length lines :
  length (flush (run initial_state lines)) = markers lines.
Proof.
  destruct (run_epoch_state lines) as [H0 H1]. unfold flush.
  destruct (markers lines) as [|k] eqn:Hk.
  - destruct H0 as [-> ->]; done.
  - destruct H1 as [-> Hlen]; [lia|]. rewrite length_app. simpl. lia.
Qed.

Lemma process_line_no_counts st line :
  no_counts line → relay_stats (process_line st line) = relay_stats st.
Proof.
  unfold no_counts, is_relay_count, is_adv_count, is_marker, matched, process_line.
  destruct (search patterns.epoch line); [done|].
  destruct (search patterns.relay_stats line); [by intros [? ?]|].
  destruct (search patterns.adv_stats line); [by intros [? ?]|].
  by destruct (search patterns.circuit line).
Qed.

Lemma run_no_counts st lines :
  Forall no_counts lines → relay_stats (run st lines) = relay_stats st.
Proof.
  intros H. revert st. induction H as [|x l Hx _ IH]; intros st; [done|].
  rewrite run_cons, IH. by apply process_line_no_counts.
Qed.

Lemma run_quiet st lines :
  Forall quiet lines →
  relay_stats (run st lines) = relay_stats st
  ∧ epoch_data (run st lines) = epoch_data st
  ∧ current_epoch (run st lines) = current_epoch st.
Proof.
  intros H. revert st. induction H as [|x l [Hm Hx] _ IH]; intros st; [done|].
  rewrite run_cons. destruct (IH (process_line st x)) as (-> & -> & ->).
  destruct (process_not_marker st x Hm) as [-> ->].
  by rewrite process_line_no_counts.
Qed.

Lemma process_line_epoch_prefix st line :
  ∃ more, epoch_data (process_line st line) = epoch_data st ++ more.
Proof.
  destruct (is_marker line) eqn:Hm.
  - rewrite (process_marker _ _ Hm). simpl. unfold flush.
    destruct (truthy (current_epoch st)); [eauto|].
    exists []. by rewrite app_nil_r.
  - destruct (process_not_marker st line Hm) as [-> _].
    exists []. by rewrite app_nil_r.
Qed.

(** Stored snapshots are never removed or rewritten. *)
Lemma flush_run_prefix st lines :
  ∃ more, flush (run st lines) = epoch_data st ++ more.
Proof.
  revert st. induction lines as [|x l IH]; intros st.
  - simpl. unfold flush. destruct (truthy (current_epoch st)); [eauto|].
    exists []. by rewrite app_nil_r.
  - rewrite run_cons. destruct (IH (process_line st x)) as [more ->].
    destruct (process_line_epoch_prefix st x) as [more0 ->].
    exists (more0 ++ more). by rewrite app_assoc.
Qed.

(** The snapshot stored for the epoch that the marker [m] opens, when
    its span reports no counts, is the running snapshot as the lines
    before [m] left it; so is the one stored just before it. *)
Lemma quiet_epoch_snapshot before m span rest :
  is_marker m = true → Forall quiet span → closes_span rest →
  let stored := flush (run initial_state (before ++ m :: span ++ rest)) in
  let k := markers before in
  stored !! k = Some (relay_stats (run initial_state before))
  ∧ (0 < k → stored !! (k - 1) = Some (relay_stats (run initial_state before))).
Proof.
  intros Hm Hspan Hrest stored k. subst stored.
  rewrite run_app, run_cons, run_app.
  set (st1 := run initial_state before).
  set (st2 := process_line st1 m).
  set (st3 := run st2 span).
  assert (H2 : length (epoch_data st2) = k
               ∧ (0 < k → epoch_data st2 !! (k - 1) = Some (relay_stats st1))
               ∧ truthy (current_epoch st2) = true
               ∧ relay_stats st2 = relay_stats st1).
  { subst st2. rewrite (process_marker _ _ Hm). simpl.
    destruct (run_epoch_state before) as [H0 H1]. fold st1 in H0, H1.
    fold k in H0, H1. unfold flush.
    split; [|split; [|split; [by apply marker_truthy | done]]].
    - destruct k as [|j].
      + destruct H0 as [-> ->]; done.
      + destruct H1 as [-> Hlen]; [lia|]. rewrite length_app. simpl. lia.
    - intros Hk. destruct H1 as [-> Hlen]; [done|].
      rewrite lookup_app_r by lia.
      replace (k - 1 - length (epoch_data st1)) with 0 by lia. done. }
  destruct H2 as (Hlen2 & Hprev2 & Htr2 & Hrs2).
  destruct (run_quiet st2 span Hspan) as (Hrs3 & Hed3 & Hce3). fold st3 in Hrs3, Hed3, Hce3.
  assert (Hflush3 : flush st3 = epoch_data st2 ++ [relay_stats st1]).
  { unfold flush. by rewrite Hce3, Htr2, Hed3, Hrs3, Hrs2. }
  assert (Hfinal : ∃ more,
            flush (run st3 rest) = epoch_data st2 ++ [relay_stats st1] ++ more).
  { destruct Hrest as [-> | (m' & rest' & -> & Hm')].
    - exists []. by rewrite app_nil_r.
    - rewrite run_cons.
      destruct (flush_run_prefix (process_line st3 m') rest') as [more ->].
      rewrite (process_marker _ _ Hm'). simpl. rewrite Hflush3.
      exists more. by rewrite <- app_assoc. }
  destruct Hfinal as [more ->]. split.
  - rewrite lookup_app_r by lia.
    replace (k - length (epoch_data st2)) with 0 by lia. done.
  - intros Hk. rewrite lookup_app_l by lia. by apply Hprev2.
Qed.

End Epochs.

(** ** Circuits, tallies and exposure sets *)

Section Circuits.

Lemma process_circuit st line c id :
  circuit_of line = Some (c, id) → process_line st line = track_circuit st c id.
Proof.
  unfold circuit_of, is_marker, matched, process_line.
  destruct (search patterns.epoch line); [done|].
  destruct (search patterns.relay_stats line); [done|].
  destruct (search patterns.adv_stats line); [done|]. simpl.
  destruct (search patterns.circuit line); [|done]. by intros [= <- <-].
Qed.

Lemma process_not_circuit st line :
  circuit_of line = None →
  all_circuits (process_line st line) = all_circuits st
  ∧ circuits_compromised (process_line st line) = circuits_compromised st
  ∧ client_exposures (process_line st line) = client_exposures st.
Proof.
  unfold circuit_of, is_marker, matched, process_line.
  destruct (search patterns.epoch line); [done|].
  destruct (search patterns.relay_stats line); [done|].
  destruct (search patterns.adv_stats line); [done|]. simpl.
  by destruct (search patterns.circuit line).
Qed.

Lemma track_circuit_fields st c id :
  let first_seen := compromised id && bool_decide (id ∉ all_circuits st) in
  all_circuits (track_circuit st c id) = all_circuits st ∪ {[id]}
  ∧ circuits_compromised (track_circuit st c id) =
      (if first_seen then incr (vector id) (circuits_compromised st)
       else circuits_compromised st)
  ∧ client_exposures (track_circuit st c id) =
      (if first_seen then add_exposure c (vector id) (client_exposures st)
       else client_exposures st)
  ∧ epoch_data (track_circuit st c id) = epoch_data st
  ∧ current_epoch (track_circuit st c id) = current_epoch st
  ∧ relay_stats (track_circuit st c id) = relay_stats st.
Proof. by destruct id as [[g m] e]. Qed.

(** A circuit whose identity is already known changes nothing. *)
Lemma track_circuit_known st c id :
  id ∈ all_circuits st → track_circuit st c id = st.
Proof.
  intros Hin. destruct (track_circuit_fields st c id) as (H1 & H2 & H3 & H4 & H5 & H6).
  rewrite bool_decide_eq_false_2, andb_false_r in H2, H3 by (intros Hn; by apply Hn).
  destruct st as [ac cc ce ed cu rs], (track_circuit _ c id) as [ac' cc' ce' ed' cu' rs'].
  simpl in *. subst. f_equal. set_solver.
Qed.

Lemma identities_snoc lines line :
  identities (lines ++ [line]) =
    match circuit_of line with
    | Some (_, id) => identities lines ∪ {[id]}
    | None => identities lines
    end.
Proof.
  unfold identities. rewrite omap_app. simpl.
  destruct (circuit_of line) as [[c id]|]; simpl.
  - rewrite fmap_app, list_to_set_app_L. simpl. set_solver.
  - by rewrite app_nil_r.
Qed.

Lemma identities_app_subseteq a b : identities a ⊆ identities (a ++ b).
Proof.
  unfold identities. rewrite omap_app, fmap_app, list_to_set_app_L. set_solver.
Qed.

Lemma identities_cons_elem line c id rest :
  circuit_of line = Some (c, id) → id ∈ identities (line :: rest).
Proof. unfold identities. simpl. intros ->. simpl. set_solver. Qed.

(** The cumulative circuit set holds the identities read so far. *)
Lemma run_all_circuits lines :
  all_circuits (run initial_state lines) = identities lines.
Proof.
  induction lines as [|x l IH] using rev_ind; [done|].
  rewrite run_snoc, identities_snoc.
  destruct (circuit_of x) as [[c id]|] eqn:E.
  - rewrite (process_circuit _ _ _ _ E).
    destruct (track_circuit_fields (run initial_state l) c id) as (-> & _).
    by rewrite IH.
  - destruct (process_not_circuit (run initial_state l) x E) as (-> & _). done.
Qed.

Lemma exposed_snoc lines line c v :
  exposed (lines ++ [line]) c v ↔
  exposed lines c v
  ∨ ∃ id, circuit_of line = Some (c, id) ∧ compromised id = true
          ∧ vector id = v ∧ id ∉ identities lines.
Proof.
  split.
  - intros (i & x & id & Hi & Hc & Hcomp & Hv & Hnew).
    destruct (decide (i < length lines)) as [Hlt|Hge].
    + left. exists i, x, id. rewrite lookup_app_l in Hi by done.
      rewrite take_app_le in Hnew by lia. done.
    + right. assert (i = length lines) as ->.
      { apply lookup_lt_Some in Hi. rewrite length_app in Hi. simpl in Hi. lia. }
      rewrite take_app_length in Hnew.
      rewrite lookup_app_r, Nat.sub_diag in Hi by lia. injection Hi as <-.
      eauto.
  - intros [(i & x & id & Hi & Hc & Hcomp & Hv & Hnew) | (id & Hc & Hcomp & Hv & Hnew)].
    + pose proof (lookup_lt_Some _ _ _ Hi) as Hlt.
      exists i, x, id. rewrite lookup_app_l by done.
      rewrite take_app_le by lia. done.
    + exists (length lines), line, id.
      rewrite lookup_app_r, Nat.sub_diag, take_app_length by lia. done.
Qed.

Lemma exposed_snoc_circuit lines line c0 id c v :
  circuit_of line = Some (c0, id) →
  exposed (lines ++ [line]) c v ↔
  exposed lines c v
  ∨ (c0 = c ∧ compromised id = true ∧ vector id = v ∧ id ∉ identities lines).
Proof.
  intros E. rewrite exposed_snoc, E. split.
  - intros [?|(id' & [= -> ->] & H)]; [by left | by right].
  - intros [?|(-> & H)]; [by left | right; by exists id].
Qed.

Lemma exposed_snoc_other lines line c v :
  circuit_of line = None → exposed (lines ++ [line]) c v ↔ exposed lines c v.
Proof.
  intros E. rewrite exposed_snoc, E. split; [|by left].
  by intros [?|(id' & ? & _)].
Qed.

Lemma lookup_add_exposure k v d c :
  default ∅ (add_exposure k v d !! c) =
    if decide (k = c) then default ∅ (d !! c) ∪ {[v]} else default ∅ (d !! c).
Proof.
  unfold add_exposure. destruct (decide (k = c)) as [->|Hne].
  - by rewrite lookup_insert_eq.
  - by rewrite lookup_insert_ne.
Qed.

(** The exposure sets hold the vectors of the first-seen compromised
    circuits of each client, no client has an empty set. *)
Lemma run_client_exposures lines :
  let d := client_exposures (run initial_state lines) in
  (∀ c v, v ∈ default ∅ (d !! c) ↔ exposed lines c v)
  ∧ (∀ c, is_Some (d !! c) ↔ ∃ v, exposed lines c v).
Proof.
  induction lines as [|x l [IH1 IH2]] using rev_ind.
  - simpl. split.
    + intros c v. rewrite lookup_empty. simpl. split; [set_solver|].
      by intros (i & y & id & Hi & _).
    + intros c. rewrite lookup_empty. split; [by intros []|].
      by intros (v & i & y & id & Hi & _).
  - rewrite run_snoc. simpl in *.
    pose proof (run_all_circuits l) as Hac.
    set (st := run initial_state l) in *.
    destruct (circuit_of x) as [[c0 id]|] eqn:E.
    + rewrite (process_circuit _ _ _ _ E).
      destruct (track_circuit_fields st c0 id) as (_ & _ & -> & _).
      rewrite Hac.
      pose proof (λ c v, exposed_snoc_circuit l x c0 id c v E) as Hs.
      destruct (compromised id) eqn:Hcomp; simpl;
        [destruct (decide (id ∈ identities l)) as [Hin|Hnin]|].
      * rewrite bool_decide_eq_false_2 by (intros Hn; by apply Hn).
        split; intros c; [intros v|]; setoid_rewrite Hs.
        -- rewrite IH1. split; [by left|]. by intros [?|(_ & _ & _ & ?)].
        -- rewrite IH2. split; [intros [v ?]; by eauto|].
           intros [v [?|(_ & _ & _ & ?)]]; [by eauto | done].
      * rewrite bool_decide_eq_true_2 by done.
        split; intros c; [intros v|]; setoid_rewrite Hs.
        -- rewrite lookup_add_exposure. destruct (decide (c0 = c)) as [->|Hne].
           ++ rewrite elem_of_union, elem_of_singleton, IH1. split.
              ** intros [?| ->]; [by left | by right].
              ** intros [?|(_ & _ & <- & _)]; [by left | by right].
           ++ rewrite IH1. split; [by left|]. by intros [?|(? & _)].
        -- unfold add_exposure. destruct (decide (c0 = c)) as [->|Hne].
           ++ rewrite lookup_insert_eq. split; [|done]. intros _.
              exists (vector id). by right.
           ++ rewrite lookup_insert_ne by done. rewrite IH2.
              split; [intros [v ?]; by eauto|].
              intros [v [?|(? & _)]]; [by eauto | done].
      * split; intros c; [intros v|]; setoid_rewrite Hs.
        -- rewrite IH1. split; [by left|]. by intros [?|(_ & ? & _)].
        -- rewrite IH2. split; [intros [v ?]; by eauto|].
           intros [v [?|(_ & ? & _)]]; [by eauto | done].
    + destruct (process_not_circuit st x E) as (_ & _ & ->).
      pose proof (λ c v, exposed_snoc_other l x c v E) as Hs.
      split; intros c; [intros v|]; setoid_rewrite Hs; [apply IH1 | apply IH2].
Qed.

End Circuits.

(** ** Tallies *)

Section Tallies.

Lemma get0_insert (d : gmap comp_type nat) k x v :
  get0 (<[k:=x]> d) v = if decide (k = v) then x else get0 d v.
Proof.
  unfold get0. destruct (decide (k = v)) as [->|Hne].
  - by rewrite lookup_insert_eq.
  - by rewrite lookup_insert_ne.
Qed.

Lemma get0_incr k d v :
  get0 (incr k d) v = if decide (k = v) then S (get0 d v) else get0 d v.
Proof.
  unfold incr. rewrite get0_insert.
  destruct (decide (k = v)) as [->|]; [unfold get0; lia | done].
Qed.

Lemma sum_values_insert (d : gmap comp_type nat) k x :
  d !! k = None → sum_values (<[k:=x]> d) = x + sum_values d.
Proof.
  intros Hk. unfold sum_values. by rewrite map_to_list_insert.
Qed.

Lemma sum_over_insert (d : gmap comp_type nat) k x :
  d !! k = None → sum_over all_vectors (<[k:=x]> d) = x + sum_over all_vectors d.
Proof.
  intros Hk. assert (H0 : get0 d k = 0) by (unfold get0; by rewrite Hk).
  unfold sum_over, all_vectors, all_combinations. simpl.
  rewrite !get0_insert.
  destruct k as [[[] []] []]; repeat case_decide; try done; simpl in *; lia.
Qed.

(** [sum(d.values())] is the sum of the eight readings. *)
Lemma sum_values_sum_over d : sum_values d = sum_over all_vectors d.
Proof.
  induction d as [|k x d Hk IH] using map_ind.
  - unfold sum_values. by rewrite map_to_list_empty.
  - by rewrite sum_values_insert, sum_over_insert, IH.
Qed.

Lemma sum_values_incr k d : sum_values (incr k d) = S (sum_values d).
Proof.
  rewrite !sum_values_sum_over. unfold sum_over, all_vectors, all_combinations.
  simpl. rewrite !get0_incr.
  destruct k as [[[] []] []]; repeat case_decide; try done; simpl in *; lia.
Qed.

Lemma incr_comm a b d : incr a (incr b d) = incr b (incr a d).
Proof.
  unfold incr. destruct (decide (a = b)) as [->|Hne]; [done|].
  rewrite !(lookup_insert_ne _ _ _ _) by done.
  by rewrite insert_insert_ne.
Qed.

Lemma count_types_from_permutation tr1 tr2 :
  tr1 ≡ₚ tr2 → ∀ d, fold_left (λ d t, incr t d) tr1 d = fold_left (λ d t, incr t d) tr2 d.
Proof.
  induction 1 as [|x l1 l2 _ IH|x y l|l1 l2 l3 _ IH1 _ IH2]; intros d; simpl.
  - done.
  - apply IH.
  - by rewrite incr_comm.
  - by rewrite IH1.
Qed.

(** [client_counts] does not depend on the order of the two loops. *)
Lemma count_types_permutation tr1 tr2 :
  tr1 ≡ₚ tr2 → count_types tr1 = count_types tr2.
Proof. intros H. by apply count_types_from_permutation. Qed.

Lemma compromised_vector id : compromised id = false ↔ vector id = (false, false, false).
Proof.
  unfold compromised, vector.
  destruct (endswith_star id.1.1), (endswith_star id.1.2), (endswith_star id.2);
    simpl; split; congruence.
Qed.

Lemma size_filter_empty (P : circuit_id → Prop) `{!∀ x, Decision (P x)} :
  size (filter P (∅ : gset circuit_id)) = 0.
Proof.
  replace (filter P (∅ : gset circuit_id)) with (∅ : gset circuit_id)
    by set_solver.
  apply size_empty.
Qed.

Lemma size_filter_add (P : circuit_id → Prop) `{!∀ x, Decision (P x)}
    (X : gset circuit_id) id :
  id ∉ X →
  size (filter P (X ∪ {[id]})) =
    if decide (P id) then S (size (filter P X)) else size (filter P X).
Proof.
  intros Hid. destruct (decide (P id)) as [Hp|Hp].
  - replace (filter P (X ∪ {[id]})) with (filter P X ∪ {[id]}) by set_solver.
    rewrite size_union, size_singleton by set_solver. lia.
  - by replace (filter P (X ∪ {[id]})) with (filter P X) by set_solver.
Qed.

(** The tallies count distinct compromised identities: each vector's
    tally is the number of known identities with that vector, and their
    sum is the number of known compromised identities. *)
Lemma run_tallies lines :
  let st := run initial_state lines in
  (∀ v, get0 (circuits_compromised st) v =
        size (filter (λ id, compromised id = true ∧ vector id = v) (identities lines)))
  ∧ sum_values (circuits_compromised st) =
      size (filter (λ id, compromised id = true) (identities lines)).
Proof.
  induction lines as [|x l [IH1 IH2]] using rev_ind.
  - change (identities []) with (∅ : gset circuit_id). simpl.
    split; [intros v|]; by rewrite size_filter_empty.
  - rewrite run_snoc, identities_snoc. simpl in *.
    pose proof (run_all_circuits l) as Hac.
    set (st := run initial_state l) in *.
    destruct (circuit_of x) as [[c0 id]|] eqn:E.
    + rewrite (process_circuit _ _ _ _ E).
      destruct (track_circuit_fields st c0 id) as (_ & -> & _).
      rewrite Hac.
      destruct (decide (id ∈ identities l)) as [Hin|Hnin].
      { rewrite bool_decide_eq_false_2, andb_false_r by (intros Hn; by apply Hn).
        replace (identities l ∪ {[id]}) with (identities l) by set_solver. done. }
      rewrite bool_decide_eq_true_2, andb_true_r by done.
      split; [intros v|]; rewrite size_filter_add by done.
      * destruct (compromised id) eqn:Hcomp.
        -- rewrite get0_incr, IH1. repeat case_decide; naive_solver.
        -- rewrite IH1. case_decide; naive_solver.
      * destruct (compromised id) eqn:Hcomp.
        -- rewrite sum_values_incr, IH2. by case_decide.
        -- rewrite IH2. by case_decide.
    + destruct (process_not_circuit st x E) as (_ & -> & _). done.
Qed.

End Tallies.

(** ** Client counts *)

Section Clients.

Lemma foldr_max_ge (l : list N) k : k ∈ l → (k ≤ foldr N.max 0 l)%N.
Proof.
  induction l as [|x l IH]; simpl; [by intros ?%elem_of_nil|].
  intros [->|Hin]%elem_of_cons; [lia|]. specialize (IH Hin). lia.
Qed.

Lemma foldr_max_in (l : list N) : l ≠ [] → foldr N.max 0%N l ∈ l.
Proof.
  induction l as [|x l IH]; [done|]. intros _. simpl.
  destruct l as [|y l].
  - simpl. rewrite N.max_0_r. set_solver.
  - destruct (N.max_spec x (foldr N.max 0%N (y :: l))) as [[_ ->]|[_ ->]].
    + apply elem_of_cons. right. by apply IH.
    + set_solver.
Qed.

Lemma elem_of_keys (d : gmap N (gset comp_type)) k :
  k ∈ (map_to_list d).*1 ↔ is_Some (d !! k).
Proof.
  rewrite list_elem_of_fmap. split.
  - intros ([k' x] & -> & Hin%elem_of_map_to_list). simpl. eauto.
  - intros [x Hx]. exists (k, x). split; [done|]. by apply elem_of_map_to_list.
Qed.

Lemma max_key_ge (d : gmap N (gset comp_type)) k :
  is_Some (d !! k) → (k ≤ max_key d)%N.
Proof. intros H. apply foldr_max_ge. by apply elem_of_keys. Qed.

Lemma max_key_in (d : gmap N (gset comp_type)) :
  d ≠ ∅ → is_Some (d !! max_key d).
Proof.
  intros Hne. apply elem_of_keys, foldr_max_in.
  intros Hnil. apply Hne, map_to_list_empty_iff.
  by destruct (map_to_list d).
Qed.

Lemma bounded_NoDup_length (l : list N) (m : N) :
  NoDup l → (∀ x, x ∈ l → (x ≤ m)%N) → (length l ≤ S (N.to_nat m))%nat.
Proof.
  intros Hnd Hle.
  assert (Hsub : N.to_nat <$> l ⊆+ seq 0 (S (N.to_nat m))).
  { apply NoDup_submseteq.
    - apply (NoDup_fmap_2 _), Hnd.
    - intros n (x & -> & Hx)%list_elem_of_fmap.
      apply elem_of_seq. specialize (Hle x Hx). lia. }
  apply submseteq_length in Hsub.
  by rewrite length_fmap, length_seq in Hsub.
Qed.

(** Distinct indices up to a maximum are at most one more than it. *)
Lemma size_le_max_key (d : gmap N (gset comp_type)) :
  (N.of_nat (size d) ≤ max_key d + 1)%N.
Proof.
  pose proof (bounded_NoDup_length (map_to_list d).*1 (max_key d)) as H.
  rewrite length_fmap, length_map_to_list in H.
  specialize (H (NoDup_fst_map_to_list d)).
  assert (size d ≤ S (N.to_nat (max_key d)))%nat; [|lia].
  apply H. intros x Hx. by apply max_key_ge, elem_of_keys.
Qed.

End Clients.

(** ** Iteration order *)

Section Order.

Lemma iterates_elements X : iterates X (elements X).
Proof.
  split; [apply NoDup_elements|]. intros v. apply elem_of_elements.
Qed.

Lemma iterates_permutation X order : iterates X order → order ≡ₚ elements X.
Proof.
  intros [Hnd Hin]. apply NoDup_Permutation; [done | apply NoDup_elements|].
  intros v. by rewrite Hin, elem_of_elements.
Qed.

Lemma visits_traversal d : visits d (traversal d).
Proof.
  exists (map_to_list d).*2, (elements <$> (map_to_list d).*2).
  split; [done|]. split; [|done].
  apply Forall2_fmap_r, Forall_Forall2_diag, Forall_forall.
  intros X _. apply iterates_elements.
Qed.

Lemma visits_permutation d tr : visits d tr → tr ≡ₚ traversal d.
Proof.
  intros (sets & orders & Hsets & Hit & ->). unfold traversal.
  rewrite <- Hsets. clear Hsets.
  induction Hit as [|X o sets orders Ho _ IH]; simpl; [done|].
  by rewrite IH, (iterates_permutation _ _ Ho).
Qed.

End Order.

(** * The claims of the specification *)

(** The lines of a file end in a line feed; the scenarios give the same
    results with it. *)
Example scenario_B_line_feed :
  analyze_torfs_output (line_feed <$> scenario_B) = analyze_torfs_output scenario_B.
Proof. vm_compute. reflexivity. Qed.

(** ** C1: the renderer on degenerate aggregates *)

Lemma circuit_section_no_circuits r :
  total_circuits r = 0 → circuit_section r = inl ZeroDivisionError.
Proof. unfold circuit_section. by intros ->. Qed.

Lemma generate_report_no_circuits r :
  total_circuits r = 0 → generate_report r = inl ZeroDivisionError.
Proof.
  intros H. unfold generate_report. by rewrite circuit_section_no_circuits.
Qed.

(** C1.  The claim asks that the renderer completes on every degenerate
    aggregate and that the empty log yields a report with the line
    "Total unique circuits: 0".  The code does not: on the empty log the
    share of compromised circuits is 0/0 and [generate_report] raises
    [ZeroDivisionError]; it raises also on a log with circuits but no
    exposed client (0 clients) and on a log whose epochs report no relays
    (average 0). *)
Theorem generate_report_degenerate_raises :
  total_circuits (analyze_torfs_output []) = 0
  ∧ generate_report (analyze_torfs_output []) = inl ZeroDivisionError
  ∧ generate_report
      (analyze_torfs_output
         ["Client 3 uses the following circuit for a stream request: G1 M1 X1"])
    = inl ZeroDivisionError
  ∧ generate_report
      (analyze_torfs_output
         (scenario_B ++ ["[00:00] Entering simulation epoch with consensus from 2020-01-01"]))
    = inl ZeroDivisionError.
Proof. repeat split; vm_compute; reflexivity. Qed.

(** ** C2: what makes a line an epoch marker *)

(** C2, as stated, fails: a line with the marker text and no
    bracketed prefix is not an epoch boundary; it leaves the state as it
    was, and a log of two such lines stores no snapshot. *)
Lemma marker_text_without_bracket_ignored :
  let line := "Entering simulation epoch with consensus from 2020-01-01" in
  contains "Entering simulation epoch with consensus from" line
  ∧ is_marker line = false
  ∧ process_line initial_state line = initial_state
  ∧ res_epoch_data (analyze_torfs_output [line; line]) = [].
Proof.
  split; [by exists "", " 2020-01-01"|].
  repeat split; vm_compute; reflexivity.
Qed.

(** C2, amended.  A line is an epoch boundary exactly when it contains an
    opening bracket followed, after any characters other than a line feed,
    by "] Entering simulation epoch with consensus from"; what stands
    between the brackets and around the match is ignored.  On such a line
    the loop flushes the running snapshot if an epoch is open and makes
    the stripped line the current epoch; on any other line it leaves the
    stored snapshots and the current epoch alone. *)
Theorem epoch_marker_needs_bracket (line : string) (st : state) :
  (is_marker line = true ↔
     ∃ a b c, all_in Dot b = true ∧
       line = a +:+ "[" +:+ b
                +:+ "] Entering simulation epoch with consensus from" +:+ c)
  ∧ (is_marker line = true →
     epoch_data (process_line st line) = flush st
     ∧ current_epoch (process_line st line) = Some (strip line))
  ∧ (is_marker line = false →
     epoch_data (process_line st line) = epoch_data st
     ∧ current_epoch (process_line st line) = current_epoch st).
Proof.
  split; [apply is_marker_iff|]. split.
  - intros H. by rewrite (process_marker _ _ H).
  - apply process_not_marker.
Qed.

Lemma epoch_marker_needs_bracket_witness :
  let line := "[00:00] Entering simulation epoch with consensus from 2020-01-01" in
  epoch_data (process_line initial_state line) = flush initial_state
  ∧ current_epoch (process_line initial_state line) = Some (strip line).
Proof.
  intros line.
  apply (proj1 (proj2 (epoch_marker_needs_bracket line initial_state))).
  vm_compute. reflexivity.
Defined.

(** ** C3: the total number of clients *)

(** C3.  [total_clients] is 0 when no client shows a first-seen
    compromised circuit, and otherwise one more than the largest index of
    such a client; clients seen on clean circuits only do not count.
    Scenario B gives 4 clients, 1 of them compromised, and one compromised
    circuit with vector (guard, not middle, not exit); a later clean
    circuit of client 9 leaves the total at 4. *)
Theorem total_clients_max_exposed :
  (∀ lines : list string,
     let r := analyze_torfs_output lines in
     ((∀ c v, ¬ exposed lines c v) → total_clients r = 0%N)
     ∧ ((∃ c v, exposed lines c v) →
        ∃ m, (∃ v, exposed lines m v)
             ∧ (∀ c v, exposed lines c v → (c ≤ m)%N)
             ∧ total_clients r = (m + 1)%N))
  ∧ (let r := analyze_torfs_output scenario_B in
     total_clients r = 4%N ∧ compromised_clients r = 1
     ∧ total_circuits r = 1 ∧ compromised_circuits r = 1
     ∧ circuit_counts r = {[ (true, false, false) := 1 ]})
  ∧ total_clients
      (analyze_torfs_output
         (scenario_B ++
          ["Client 9 uses the following circuit for a stream request: G2 M2 X2"]))
    = 4%N.
Proof.
  split; [|split; [repeat split; vm_compute; reflexivity | vm_compute; reflexivity]].
  intros lines. simpl.
  destruct (run_client_exposures lines) as [_ Hkeys]. simpl in Hkeys.
  set (d := client_exposures (run initial_state lines)) in *. split.
  - intros Hnone. rewrite decide_True; [done|].
    apply map_empty. intros c. apply eq_None_not_Some.
    intros [v Hv]%Hkeys. by apply (Hnone c v).
  - intros (c & v & Hcv).
    assert (Hne : d ≠ ∅).
    { intros Hd. assert (Hc : is_Some (d !! c)) by (apply Hkeys; eauto).
      rewrite Hd, lookup_empty in Hc. by destruct Hc. }
    rewrite decide_False by done. exists (max_key d). split; [|split; [|done]].
    + by apply Hkeys, max_key_in.
    + intros c' v' H'. apply max_key_ge, Hkeys. eauto.
Qed.

Lemma total_clients_max_exposed_witness :
  ∃ m, (∃ v, exposed scenario_B m v)
       ∧ (∀ c v, exposed scenario_B c v → (c ≤ m)%N)
       ∧ total_clients (analyze_torfs_output scenario_B) = (m + 1)%N.
Proof.
  apply (proj2 (proj1 total_clients_max_exposed scenario_B)).
  exists 3%N, (true, false, false), 0.
  exists "Client 3 uses the following circuit for a stream request: G1* M1 X1",
    ("G1*", "M1", "X1").
  repeat split; try (vm_compute; reflexivity).
  apply not_elem_of_empty.
Defined.

(** ** C4: a repeated circuit counts once *)

Section Repeats.

Lemma identities_app a b : identities (a ++ b) = identities a ∪ identities b.
Proof. unfold identities. by rewrite omap_app, fmap_app, list_to_set_app_L. Qed.

(** A circuit-usage line whose identity occurred before leaves the
    state as it is. *)
Lemma run_repeat l1 l l2 l' c c' id :
  circuit_of l = Some (c, id) → circuit_of l' = Some (c', id) →
  process_line (run initial_state (l1 ++ l :: l2)) l'
  = run initial_state (l1 ++ l :: l2).
Proof.
  intros Hl Hl'. rewrite (process_circuit _ _ _ _ Hl').
  apply track_circuit_known. rewrite run_all_circuits, identities_app.
  apply elem_of_union_r. change (l :: l2) with ([l] ++ l2).
  rewrite identities_app. apply elem_of_union_l.
  unfold identities. simpl. rewrite Hl. simpl. set_solver.
Qed.

Lemma exposed_first l1 l rest c id :
  circuit_of l = Some (c, id) → compromised id = true → id ∉ identities l1 →
  exposed (l1 ++ l :: rest) c (vector id).
Proof.
  intros Hl Hcomp Hnew. exists (length l1), l, id.
  rewrite take_app_length, list_lookup_middle by done. done.
Qed.

End Repeats.

(** C4.  When a compromised identity occurs on a second circuit-usage
    line, the second line changes nothing: the analysis returns what it
    returns without that line.  The tallies count distinct identities, so
    the identity is counted once among the circuits, once in the tally of
    its vector and once among the compromised circuits, and its vector is
    in the exposure set of the client of its first line.  In scenario C
    there are 1 circuit, 1 compromised circuit, and client 3 is exposed
    to exactly one vector. *)
Theorem repeated_circuit_counted_once :
  (∀ (l1 : list string) (l : string) (l2 : list string) (l' : string)
     (l3 : list string) (c c' : N) (id : circuit_id),
     circuit_of l = Some (c, id) → circuit_of l' = Some (c', id) →
     compromised id = true →
     let lines := l1 ++ l :: l2 ++ l' :: l3 in
     let r := analyze_torfs_output lines in
     r = analyze_torfs_output (l1 ++ l :: l2 ++ l3)
     ∧ total_circuits r = size (identities lines)
     ∧ compromised_circuits r =
         size (filter (λ i, compromised i = true) (identities lines))
     ∧ get0 (circuit_counts r) (vector id) =
         size (filter (λ i, compromised i = true ∧ vector i = vector id)
                 (identities lines))
     ∧ (id ∉ identities l1 →
        vector id ∈ default ∅ (res_client_exposures r !! c)))
  ∧ (let r := analyze_torfs_output scenario_C in
     total_circuits r = 1 ∧ compromised_circuits r = 1
     ∧ res_client_exposures r = {[ 3%N := {[ (true, false, false) ]} ]}
     ∧ size (default ∅ (res_client_exposures r !! 3%N)) = 1).
Proof.
  split; [|repeat split; vm_compute; reflexivity].
  intros l1 l l2 l' l3 c c' id Hl Hl' Hcomp lines r. subst r.
  destruct (run_tallies lines) as [Hvec Hsum].
  destruct (run_client_exposures lines) as [Hexp _].
  split; [|split; [|split; [|split]]].
  - unfold analyze_torfs_output. subst lines.
    replace (l1 ++ l :: l2 ++ l' :: l3) with ((l1 ++ l :: l2) ++ l' :: l3)
      by (by rewrite <- app_assoc).
    replace (l1 ++ l :: l2 ++ l3) with ((l1 ++ l :: l2) ++ l3)
      by (by rewrite <- app_assoc).
    rewrite !(run_app _ (l1 ++ l :: l2)), run_cons.
    by rewrite (run_repeat _ _ _ _ _ _ _ Hl Hl').
  - simpl. by rewrite run_all_circuits.
  - apply Hsum.
  - apply Hvec.
  - intros Hnew. apply Hexp. by apply exposed_first.
Qed.

Lemma repeated_circuit_counted_once_witness :
  analyze_torfs_output scenario_C = analyze_torfs_output scenario_B.
Proof.
  apply (proj1 (proj1 repeated_circuit_counted_once []
    "Client 3 uses the following circuit for a stream request: G1* M1 X1" []
    "Client 3 uses the following circuit for a stream request: G1* M1 X1" []
    3%N 3%N ("G1*", "M1", "X1")
    ltac:(vm_compute; reflexivity) ltac:(vm_compute; reflexivity)
    ltac:(vm_compute; reflexivity))).
Defined.

(** ** C5: the circuit totals add up *)

Lemma size_filter_split (X : gset circuit_id) :
  size X = size (filter (λ id, compromised id = true) X)
           + size (filter (λ id, compromised id = false) X).
Proof.
  rewrite <- size_union.
  - f_equal. apply set_eq. intros id.
    rewrite elem_of_union, !elem_of_filter. destruct (compromised id); naive_solver.
  - intros id. rewrite !elem_of_filter. intros [? _] [? _]. congruence.
Qed.

(** C5.  The number of distinct circuits is the number of compromised
    circuits plus the number of distinct identities without the marker in
    any position, and the number of compromised circuits is the sum of
    the tallies of the seven vectors of the breakdown. *)
Theorem circuit_totals_add_up (lines : list string) :
  let r := analyze_torfs_output lines in
  total_circuits r =
    compromised_circuits r
    + size (filter (λ id, compromised id = false) (identities lines))
  ∧ compromised_circuits r = sum_list (get0 (circuit_counts r) <$> all_combinations).
Proof.
  simpl. destruct (run_tallies lines) as [Hvec Hsum]. simpl in Hvec, Hsum. split.
  - rewrite Hsum, run_all_circuits. apply size_filter_split.
  - rewrite sum_values_sum_over. unfold sum_over, all_vectors.
    rewrite fmap_cons. simpl. rewrite Hvec.
    replace (filter _ (identities lines)) with (∅ : gset circuit_id);
      [by rewrite size_empty|].
    symmetry. apply set_eq. intros id. rewrite elem_of_filter.
    split; [|by intros ?%not_elem_of_empty].
    intros [[Hc Hv] _]. apply compromised_vector in Hv. congruence.
Qed.

(** ** C6: one snapshot per marker *)

Lemma relay_section_no_epochs r :
  res_epoch_data r = [] → relay_section r = inr [].
Proof. unfold relay_section. by intros ->. Qed.

Lemma generate_report_no_epochs r :
  res_epoch_data r = [] →
  generate_report r =
    (circuits ← circuit_section r; clients ← client_section r;
     mret (circuits ++ clients)).
Proof.
  intros H. unfold generate_report. rewrite (relay_section_no_epochs _ H).
  destruct (circuit_section r) as [e|c]; [done|]. simpl.
  destruct (client_section r) as [e|cl]; [done|]. simpl.
  by rewrite app_nil_r.
Qed.

(** C6.  With at least one marker line the result holds as many snapshots
    as the log has marker lines.  With none it holds no snapshot, the
    relay section of the report is empty and the report is the circuit
    and the client section alone. *)
Theorem snapshots_per_marker (lines : list string) :
  let r := analyze_torfs_output lines in
  (1 ≤ markers lines → length (res_epoch_data r) = markers lines)%nat
  ∧ (markers lines = 0 →
     res_epoch_data r = []
     ∧ relay_section r = inr []
     ∧ generate_report r =
         (circuits ← circuit_section r; clients ← client_section r;
          mret (circuits ++ clients))).
Proof.
  simpl. split.
  - intros _. apply flush_length.
  - intros H0.
    assert (Hnil : flush (run initial_state lines) = []).
    { apply length_zero_iff_nil. by rewrite flush_length. }
    split; [done|]. split.
    + by apply relay_section_no_epochs.
    + by apply generate_report_no_epochs.
Qed.

Lemma snapshots_per_marker_witness :
  length (res_epoch_data (analyze_torfs_output scenario_D)) = markers scenario_D
  ∧ relay_section (analyze_torfs_output scenario_B) = inr [].
Proof.
  split.
  - apply (proj1 (snapshots_per_marker scenario_D)). vm_compute. lia.
  - apply (proj2 (snapshots_per_marker scenario_B)). vm_compute. reflexivity.
Defined.

(** ** C7: what a count line overwrites *)

(** C7.  A relay-count line overwrites [total_relays], [total_guards] and
    [total_exits] of the running snapshot with the three integers of the
    match and changes nothing else, in the snapshot or in the rest of the
    state; an adversary-count line does so with [adv_guards] and
    [adv_exits]. *)
Theorem count_line_frame (st : state) (line : string) (m : list string) :
  (is_marker line = false → search patterns.relay_stats line = Some m →
   process_line st line =
     {| all_circuits := all_circuits st;
        circuits_compromised := circuits_compromised st;
        client_exposures := client_exposures st;
        epoch_data := epoch_data st;
        current_epoch := current_epoch st;
        relay_stats :=
          {| total_relays := int (group m 1);
             total_guards := int (group m 2);
             total_exits := int (group m 3);
             adv_guards := adv_guards (relay_stats st);
             adv_exits := adv_exits (relay_stats st) |} |})
  ∧ (is_marker line = false → search patterns.relay_stats line = None →
     search patterns.adv_stats line = Some m →
     process_line st line =
       {| all_circuits := all_circuits st;
          circuits_compromised := circuits_compromised st;
          client_exposures := client_exposures st;
          epoch_data := epoch_data st;
          current_epoch := current_epoch st;
          relay_stats :=
            {| total_relays := total_relays (relay_stats st);
               total_guards := total_guards (relay_stats st);
               total_exits := total_exits (relay_stats st);
               adv_guards := int (group m 1);
               adv_exits := int (group m 2) |} |}).
Proof.
  unfold is_marker, process_line. split.
  - intros Hm Hr. destruct (search patterns.epoch line); [done|]. by rewrite Hr.
  - intros Hm Hr Ha. destruct (search patterns.epoch line); [done|].
    by rewrite Hr, Ha.
Qed.

Lemma count_line_frame_witness :
  let st :=
    process_line initial_state
      "Total adversary guard relays: 3, Total adversary exit relays: 1" in
  let line :=
    "Total relays in consensus: 6000, Valid/Running Guards: 2000, Valid/Running Exits: 900" in
  process_line st line =
    {| all_circuits := all_circuits st;
       circuits_compromised := circuits_compromised st;
       client_exposures := client_exposures st;
       epoch_data := epoch_data st;
       current_epoch := current_epoch st;
       relay_stats :=
         {| total_relays := int (group ["6000"; "2000"; "900"] 1);
            total_guards := int (group ["6000"; "2000"; "900"] 2);
            total_exits := int (group ["6000"; "2000"; "900"] 3);
            adv_guards := adv_guards (relay_stats st);
            adv_exits := adv_exits (relay_stats st) |} |}
  ∧ relay_stats (process_line st line) = mk_snapshot 6000 2000 900 3 1.
Proof.
  intros st line. split.
  - apply (proj1 (count_line_frame st line ["6000"; "2000"; "900"]));
      vm_compute; reflexivity.
  - vm_compute. reflexivity.
Defined.

(** ** C8: the analysis is a function of the log *)

(** C8.  The analysis has a result on every log, and only one: whatever
    the order in which the exposure sets and their elements are visited,
    two runs on the same lines return the same result, field by field. *)
Theorem analysis_deterministic (lines : list string) :
  analysis lines (analyze_torfs_output lines)
  ∧ ∀ r1 r2, analysis lines r1 → analysis lines r2 → r1 = r2.
Proof.
  assert (Hfun : ∀ r, analysis lines r → r = analyze_torfs_output lines).
  { intros r (tr & Htr & ->). unfold analyze_torfs_output, finish.
    by rewrite (count_types_permutation _ _ (visits_permutation _ _ Htr)). }
  split.
  - eexists. split; [apply visits_traversal | done].
  - intros r1 r2 H1 H2. by rewrite (Hfun r1 H1), (Hfun r2 H2).
Qed.

Lemma analysis_deterministic_witness :
  let lines :=
    [ "Client 3 uses the following circuit for a stream request: G1* M1 X1";
      "Client 3 uses the following circuit for a stream request: G2 M2 X2*" ] in
  finish (run initial_state lines) [(true, false, false); (false, false, true)]
  = finish (run initial_state lines) [(false, false, true); (true, false, false)].
Proof.
  intros lines. apply (proj2 (analysis_deterministic lines)).
  - exists [(true, false, false); (false, false, true)]. split; [|reflexivity].
    exists [{[ (true, false, false); (false, false, true) ]}],
      [[(true, false, false); (false, false, true)]].
    split; [vm_compute; reflexivity|]. split; [|reflexivity].
    constructor; [|constructor]. split.
    + apply NoDup_cons. split; [|apply NoDup_singleton].
      rewrite list_elem_of_singleton. discriminate.
    + intros v. rewrite !elem_of_cons, elem_of_nil, elem_of_union, !elem_of_singleton.
      tauto.
  - exists [(false, false, true); (true, false, false)]. split; [|reflexivity].
    exists [{[ (true, false, false); (false, false, true) ]}],
      [[(false, false, true); (true, false, false)]].
    split; [vm_compute; reflexivity|]. split; [|reflexivity].
    constructor; [|constructor]. split.
    + apply NoDup_cons. split; [|apply NoDup_singleton].
      rewrite list_elem_of_singleton. discriminate.
    + intros v. rewrite !elem_of_cons, elem_of_nil, elem_of_union, !elem_of_singleton.
      tauto.
Defined.

(** ** C9: the running snapshot is never reset *)

(** C9, as stated, fails for the first epoch: counts reported before the
    first marker are stored for the first epoch although its own span
    reports none, so its snapshot is not the all-zero one. *)
Lemma first_epoch_snapshot_not_zero :
  let before :=
    ["Total relays in consensus: 5, Valid/Running Guards: 3, Valid/Running Exits: 2"] in
  let m := "[00:00] Entering simulation epoch with consensus from 2020-01-01" in
  markers before = 0 ∧ is_marker m = true
  ∧ res_epoch_data (analyze_torfs_output (before ++ [m]))
    = [mk_snapshot 5 3 2 0 0]
  ∧ res_epoch_data (analyze_torfs_output (before ++ [m])) !! 0
    ≠ Some zero_snapshot.
Proof. repeat split; vm_compute; congruence. Qed.

(** C9, amended.  The running snapshot is never reset at an epoch
    boundary: the snapshot stored for an epoch whose span holds no
    relay-count and no adversary-count line is the running snapshot as the
    lines before its marker left it.  It equals the snapshot stored for
    the previous epoch when there is one; for the first epoch it is the
    all-zero initial snapshot when no count line precedes the first
    marker. *)
Theorem running_snapshot_carries_over (before : list string) (m : string)
    (span rest : list string) :
  is_marker m = true → Forall quiet span → closes_span rest →
  let r := analyze_torfs_output (before ++ m :: span ++ rest) in
  let k := markers before in
  res_epoch_data r !! k = Some (relay_stats (run initial_state before))
  ∧ (0 < k → res_epoch_data r !! (k - 1) = res_epoch_data r !! k)
  ∧ (k = 0 → Forall no_counts before →
     res_epoch_data r !! k = Some zero_snapshot).
Proof.
  intros Hm Hspan Hrest r k.
  destruct (quiet_epoch_snapshot before m span rest Hm Hspan Hrest) as [Hk Hprev].
  change (res_epoch_data r) with (flush (run initial_state (before ++ m :: span ++ rest))).
  fold k in Hk, Hprev. split; [done|]. split.
  - intros Hpos. by rewrite Hk, Hprev.
  - intros _ Hquiet. rewrite Hk. f_equal. by apply run_no_counts.
Qed.

Lemma running_snapshot_carries_over_witness :
  let before :=
    [ "[00:00] Entering simulation epoch with consensus from 2020-01-01";
      "Total relays in consensus: 6000, Valid/Running Guards: 2000, Valid/Running Exits: 900";
      "Total adversary guard relays: 3, Total adversary exit relays: 1" ] in
  let m := "[01:00] Entering simulation epoch with consensus from 2020-01-02" in
  let span := ["Client 3 uses the following circuit for a stream request: G1* M1 X1"] in
  let r := analyze_torfs_output (before ++ m :: span ++ []) in
  res_epoch_data r !! 1 = Some (relay_stats (run initial_state before))
  ∧ (0 < 1 → res_epoch_data r !! (1 - 1) = res_epoch_data r !! 1)
  ∧ (1 = 0 → Forall no_counts before → res_epoch_data r !! 1 = Some zero_snapshot).
Proof.
  intros before m span.
  apply (running_snapshot_carries_over before m span []).
  - vm_compute. reflexivity.
  - repeat constructor; vm_compute; reflexivity.
  - left. reflexivity.
Defined.

(** ** C10: compromised clients are among the clients *)

(** C10.  There are never more compromised clients than clients.  The
    share the report prints is therefore at most 1 whenever it is
    defined, and it is undefined only when both numbers are 0. *)
Theorem compromised_clients_le_total (lines : list string) :
  let r := analyze_torfs_output lines in
  (N.of_nat (compromised_clients r) ≤ total_clients r)%N
  ∧ match int_div (Z.of_nat (compromised_clients r)) (Z.of_N (total_clients r)) with
    | inr share => (share <= 1)%Q
    | inl _ => compromised_clients r = 0 ∧ total_clients r = 0%N
    end.
Proof.
  simpl. set (d := client_exposures (run initial_state lines)).
  assert (Hle : (N.of_nat (size d) ≤
                 (if decide (d = ∅) then 0 else max_key d + 1))%N).
  { case_decide as Hd; [|apply size_le_max_key].
    rewrite Hd, map_size_empty. lia. }
  split; [done|]. unfold int_div.
  destruct (Z.eqb_spec (Z.of_N (if decide (d = ∅) then 0 else max_key d + 1)) 0)
    as [H0|Hn0].
  - simpl. split; lia.
  - simpl. unfold Qle. simpl. rewrite Z2Pos.id by lia. lia.
Qed.

(** * Further properties of the code *)

(** ** What the patterns capture *)

Section Captures.

Lemma greedy_sound k min cap cont acc s r :
  greedy k min cap cont acc s = Some r →
  ∃ w rest gs,
    s = w +:+ rest ∧ all_in k w = true
    ∧ (min ≤ String.length acc + String.length w)%nat
    ∧ cont rest = Some gs
    ∧ r = (if cap then (acc +:+ w) :: gs else gs)
    ∧ (∀ c rest', rest = String c rest' → in_class k c = true →
       greedy k min cap cont (acc +:+ w +:+ String c EmptyString) rest' = None).
Proof.
  revert acc r. induction s as [|c s IH]; intros acc r.
  - simpl. destruct (Nat.leb_spec min (String.length acc)); [|done].
    destruct (cont EmptyString) as [gs|] eqn:Hc; [|done]. intros [= <-].
    exists EmptyString, EmptyString, gs. simpl. rewrite append_nil_r.
    repeat split; [lia | done | done].
  - cbn [greedy].
    set (stop := if (min <=? String.length acc)%nat then _ else None).
    assert (Hstop : stop = Some r →
      ∃ gs, (min ≤ String.length acc)%nat ∧ cont (String c s) = Some gs
            ∧ r = (if cap then acc :: gs else gs)).
    { subst stop. destruct (Nat.leb_spec min (String.length acc)); [|done].
      destruct (cont (String c s)) as [gs|]; [|done]. intros [= <-]. eauto. }
    destruct (in_class k c) eqn:Hk.
    + destruct (greedy k min cap cont (acc +:+ String c EmptyString) s)
        as [r'|] eqn:Hrec.
      * intros [= <-].
        destruct (IH _ _ Hrec) as (w & rest & gs & -> & Hw & Hmin & Hc & -> & Hmax).
        exists (String c w), rest, gs. simpl. rewrite Hk, Hw.
        rewrite length_snoc in Hmin. rewrite append_assoc. simpl.
        repeat split; [lia | done |].
        intros c0 rest' Hr Hk0. specialize (Hmax c0 rest' Hr Hk0).
        rewrite append_assoc in Hmax. done.
      * intros (gs & Hmin & Hc & ->)%Hstop.
        exists EmptyString, (String c s), gs. simpl. rewrite append_nil_r.
        repeat split; [lia | done |].
        intros c' rest' [= <- <-] _. done.
    + intros (gs & Hmin & Hc & ->)%Hstop.
      exists EmptyString, (String c s), gs. simpl. rewrite append_nil_r.
      repeat split; [lia | done |].
      intros c' rest' [= <- <-]. congruence.
Qed.

Lemma match_here_sound p s gs :
  match_here p s = Some gs → ∃ w rest, s = w +:+ rest ∧ captures p w rest gs.
Proof.
  revert s gs. induction p as [|[c|k min cap] p IH]; intros s gs.
  - simpl. intros [= <-]. exists EmptyString, s. split; [done | constructor].
  - simpl. destruct s as [|c' s]; [done|].
    destruct (Ascii.eqb_spec c c') as [<-|]; [|done].
    intros (w & rest & -> & Hc)%IH. exists (String c w), rest.
    split; [done | by constructor].
  - simpl.
    intros (w & rest & gs' & -> & Hw & Hmin & (w2 & rest2 & -> & Hc)%IH & -> & Hmax)%greedy_sound.
    exists (w +:+ w2), rest2. rewrite append_assoc. split; [done|].
    simpl. constructor; [done | simpl in Hmin; lia | done |].
    intros -> c rest' ->. destruct (in_class k c) eqn:Hkc; [|done]. exfalso.
    inversion Hc; subst. simpl in Hmax.
    specialize (Hmax c rest' eq_refl Hkc).
    assert (Hsome : is_Some
      (greedy k min cap (match_here []) (w +:+ String c EmptyString) rest')).
    { apply greedy_Some. exists EmptyString, rest'. simpl.
      rewrite length_snoc. repeat split; [simpl in Hmin; lia | done]. }
    destruct Hsome as [x Hx]. simpl in Hmax, Hx. congruence.
Qed.

Lemma search_sound p s gs :
  search p s = Some gs → ∃ a s', s = a +:+ s' ∧ match_here p s' = Some gs.
Proof.
  induction s as [|c s IH]; simpl.
  - destruct (match_here p EmptyString) eqn:E; [|done]. intros [= <-].
    by exists EmptyString, EmptyString.
  - destruct (match_here p (String c s)) eqn:E.
    + intros [= <-]. by exists EmptyString, (String c s).
    + intros (a & s' & -> & H)%IH. by exists (String c a), s'.
Qed.

Lemma captures_lits t p w rest gs :
  captures (lits t ++ p) w rest gs →
  ∃ w', w = t +:+ w' ∧ captures p w' rest gs.
Proof.
  revert w. induction t as [|c t IH]; intros w; simpl.
  - eauto.
  - inversion 1; subst. destruct (IH _ ltac:(eassumption)) as (w' & -> & Hc).
    eauto.
Qed.

Lemma captures_group k p w rest gs :
  captures (group_plus k :: p) w rest gs →
  ∃ w1 w2 gs', w = w1 +:+ w2 ∧ gs = w1 :: gs'
    ∧ w1 ≠ EmptyString ∧ all_in k w1 = true ∧ captures p w2 rest gs'
    ∧ (p = [] → ∀ c rest', rest = String c rest' → in_class k c = false).
Proof.
  unfold group_plus. inversion 1; subst.
  eexists _, _, _. repeat split; try done.
  intros ->. simpl in *. lia.
Qed.

End Captures.

(** Concatenations, flattened to the right. *)
Ltac str_norm :=
  repeat first [rewrite append_assoc | rewrite append_nil_r | progress simpl].

Lemma non_space_end rest :
  (∀ c rest', rest = String c rest' → in_class NonSpace c = false) →
  at_token_end rest.
Proof.
  destruct rest as [|c rest]; simpl; [done|]. intros H.
  specialize (H c rest eq_refl). simpl in H. by destruct (is_space c).
Qed.

(** X1.  What a match of the circuit pattern returns is read off the
    line: the line holds "Client", a decimal numeral, the fixed text and
    three relay names separated by single spaces; the four groups are the
    numeral and the three names, each name is without white space and not
    empty, and the third name runs up to the next white space or the end
    of the line, so a trailing marker is part of it. *)
Theorem circuit_match_reads_line (line : string) (m : list string) :
  search patterns.circuit line = Some m →
  ∃ a d g mid e rest,
    line = a +:+ "Client " +:+ d
             +:+ " uses the following circuit for a stream request: "
             +:+ g +:+ " " +:+ mid +:+ " " +:+ e +:+ rest
    ∧ m = [d; g; mid; e]
    ∧ numeral d ∧ token g ∧ token mid ∧ token e ∧ at_token_end rest.
Proof.
  intros (a & s' & -> & (w & rest & -> & Hc)%match_here_sound)%search_sound.
  unfold patterns.circuit in Hc.
  apply (captures_lits "Client ") in Hc as (w1 & -> & Hc).
  apply captures_group in Hc as (d & w2 & gs1 & -> & -> & Hd0 & Hd & Hc & _).
  apply (captures_lits " uses the following circuit for a stream request: ")
    in Hc as (w3 & -> & Hc).
  apply captures_group in Hc as (g & w4 & gs2 & -> & -> & Hg0 & Hg & Hc & _).
  inversion Hc as [|? ? w5 ? ? Hc5|]; subst. clear Hc.
  apply captures_group in Hc5 as (mid & w6 & gs3 & -> & -> & Hm0 & Hm & Hc & _).
  inversion Hc as [|? ? w7 ? ? Hc7|]; subst. clear Hc.
  apply captures_group in Hc7 as (e & w8 & gs4 & -> & -> & He0 & He & Hc & Hmax).
  inversion Hc; subst. clear Hc.
  exists a, d, g, mid, e, rest. split.
  - by str_norm.
  - repeat split; try done. apply non_space_end. by apply Hmax.
Qed.

Lemma circuit_match_reads_line_witness :
  ∃ a d g mid e rest,
    line_feed "Client 3 uses the following circuit for a stream request: G1* M1 X1"
      = a +:+ "Client " +:+ d
          +:+ " uses the following circuit for a stream request: "
          +:+ g +:+ " " +:+ mid +:+ " " +:+ e +:+ rest
    ∧ ["3"; "G1*"; "M1"; "X1"] = [d; g; mid; e]
    ∧ numeral d ∧ token g ∧ token mid ∧ token e ∧ at_token_end rest.
Proof.
  apply (circuit_match_reads_line
    (line_feed "Client 3 uses the following circuit for a stream request: G1* M1 X1")).
  vm_compute. reflexivity.
Defined.

(** X2.  What a match of a count pattern returns is read off the line:
    the groups of the relay-count pattern are the three decimal numerals
    that follow its three labels, those of the adversary-count pattern the
    two numerals that follow its two labels; [int] is only ever applied to
    numerals. *)
Theorem count_match_reads_line (line : string) (m : list string) :
  (search patterns.relay_stats line = Some m →
   ∃ a x y z rest,
     line = a +:+ "Total relays in consensus: " +:+ x
              +:+ ", Valid/Running Guards: " +:+ y
              +:+ ", Valid/Running Exits: " +:+ z +:+ rest
     ∧ m = [x; y; z] ∧ numeral x ∧ numeral y ∧ numeral z)
  ∧ (search patterns.adv_stats line = Some m →
     ∃ a x y rest,
       line = a +:+ "Total adversary guard relays: " +:+ x
                +:+ ", Total adversary exit relays: " +:+ y +:+ rest
       ∧ m = [x; y] ∧ numeral x ∧ numeral y).
Proof.
  split.
  - intros (a & s' & -> & (w & rest & -> & Hc)%match_here_sound)%search_sound.
    unfold patterns.relay_stats in Hc.
    apply (captures_lits "Total relays in consensus: ") in Hc as (w1 & -> & Hc).
    apply captures_group in Hc as (x & w2 & gs1 & -> & -> & Hx0 & Hx & Hc & _).
    apply (captures_lits ", Valid/Running Guards: ") in Hc as (w3 & -> & Hc).
    apply captures_group in Hc as (y & w4 & gs2 & -> & -> & Hy0 & Hy & Hc & _).
    apply (captures_lits ", Valid/Running Exits: ") in Hc as (w5 & -> & Hc).
    apply captures_group in Hc as (z & w6 & gs3 & -> & -> & Hz0 & Hz & Hc & _).
    inversion Hc; subst. clear Hc.
    exists a, x, y, z, rest. split; [|done].
    by str_norm.
  - intros (a & s' & -> & (w & rest & -> & Hc)%match_here_sound)%search_sound.
    unfold patterns.adv_stats in Hc.
    apply (captures_lits "Total adversary guard relays: ") in Hc as (w1 & -> & Hc).
    apply captures_group in Hc as (x & w2 & gs1 & -> & -> & Hx0 & Hx & Hc & _).
    apply (captures_lits ", Total adversary exit relays: ") in Hc as (w3 & -> & Hc).
    apply captures_group in Hc as (y & w4 & gs2 & -> & -> & Hy0 & Hy & Hc & _).
    inversion Hc; subst. clear Hc.
    exists a, x, y, rest. split; [|done].
    by str_norm.
Qed.

Lemma count_match_reads_line_witness :
  ∃ a x y z rest,
    "Total relays in consensus: 6000, Valid/Running Guards: 2000, Valid/Running Exits: 900"
      = a +:+ "Total relays in consensus: " +:+ x
          +:+ ", Valid/Running Guards: " +:+ y
          +:+ ", Valid/Running Exits: " +:+ z +:+ rest
    ∧ ["6000"; "2000"; "900"] = [x; y; z] ∧ numeral x ∧ numeral y ∧ numeral z.
Proof.
  apply (proj1 (count_match_reads_line
    "Total relays in consensus: 6000, Valid/Running Guards: 2000, Valid/Running Exits: 900"
    ["6000"; "2000"; "900"])).
  vm_compute. reflexivity.
Defined.

(** ** The state only grows *)

Section Growth.

Lemma process_line_grows st line :
  all_circuits st ⊆ all_circuits (process_line st line)
  ∧ (∀ c, default ∅ (client_exposures st !! c)
          ⊆ default ∅ (client_exposures (process_line st line) !! c))
  ∧ dom (client_exposures st) ⊆ dom (client_exposures (process_line st line))
  ∧ (∀ v, (get0 (circuits_compromised st) v
           ≤ get0 (circuits_compromised (process_line st line)) v)%nat)
  ∧ epoch_data st `prefix_of` epoch_data (process_line st line).
Proof.
  destruct (circuit_of line) as [[c id]|] eqn:E.
  - rewrite (process_circuit _ _ _ _ E).
    destruct (track_circuit_fields st c id) as (-> & -> & -> & -> & _).
    split; [set_solver|].
    destruct (compromised id && bool_decide (id ∉ all_circuits st)).
    + split; [|split; [|split; [|done]]].
      * intros c'. rewrite lookup_add_exposure. case_decide; set_solver.
      * unfold add_exposure. rewrite dom_insert_L. set_solver.
      * intros v. rewrite get0_incr. case_decide; lia.
    + done.
  - destruct (process_not_circuit st line E) as (-> & -> & ->).
    repeat split; try done.
    destruct (process_line_epoch_prefix st line) as [more ->].
    by apply prefix_app_r.
Qed.

End Growth.

(** X3.  Whatever the state and the lines read from it, the analyzer only
    adds: the circuit set, the set of exposed clients and each client's
    exposure set grow, no tally decreases, and the snapshots stored so far
    stay, in their order, at the head of the stored sequence. *)
Theorem state_only_grows (st : state) (lines : list string) :
  all_circuits st ⊆ all_circuits (run st lines)
  ∧ (∀ c, default ∅ (client_exposures st !! c)
          ⊆ default ∅ (client_exposures (run st lines) !! c))
  ∧ dom (client_exposures st) ⊆ dom (client_exposures (run st lines))
  ∧ (∀ v, (get0 (circuits_compromised st) v
           ≤ get0 (circuits_compromised (run st lines)) v)%nat)
  ∧ epoch_data st `prefix_of` epoch_data (run st lines).
Proof.
  revert st. induction lines as [|x l IH]; intros st; [done|].
  rewrite run_cons.
  destruct (process_line_grows st x) as (H1 & H2 & H3 & H4 & H5).
  destruct (IH (process_line st x)) as (I1 & I2 & I3 & I4 & I5).
  split; [set_solver|]. split; [intros c; specialize (H2 c); set_solver|].
  split; [set_solver|]. split; [|etrans; [exact H5 | exact I5]].
  intros v. specialize (H4 v). specialize (I4 v). lia.
Qed.

(** ** Lines that no pattern matches *)

Lemma process_line_irrelevant st line :
  relevant line = false → process_line st line = st.
Proof.
  unfold relevant, is_marker, matched, process_line.
  destruct (search patterns.epoch line); [done|].
  destruct (search patterns.relay_stats line); [done|].
  destruct (search patterns.adv_stats line); [done|].
  by destruct (search patterns.circuit line).
Qed.

Lemma list_filter_cons {A} (f : A → bool) x l :
  List.filter f (x :: l) = if f x then x :: List.filter f l else List.filter f l.
Proof. done. Qed.

Lemma run_relevant st lines : run st (List.filter relevant lines) = run st lines.
Proof.
  revert st. induction lines as [|x l IH]; intros st; [done|].
  rewrite list_filter_cons. destruct (relevant x) eqn:E.
  - rewrite !run_cons. apply IH.
  - rewrite run_cons, (process_line_irrelevant _ _ E). apply IH.
Qed.

(** X4.  Lines that match none of the four patterns are skipped without
    trace: the analysis of a log is the analysis of its matching lines. *)
Theorem unmatched_lines_skipped (lines : list string) :
  analyze_torfs_output (List.filter relevant lines) = analyze_torfs_output lines.
Proof. unfold analyze_torfs_output. by rewrite run_relevant. Qed.

(** ** Circuits and epochs do not interfere *)

Section Independence.

Lemma circuit_part_step st1 st2 line :
  circuit_part st1 = circuit_part st2 →
  circuit_part (process_line st1 line) = circuit_part (process_line st2 line).
Proof.
  unfold circuit_part. intros [= H1 H2 H3].
  destruct (circuit_of line) as [[c id]|] eqn:E.
  - rewrite !(process_circuit _ _ _ _ E).
    destruct (track_circuit_fields st1 c id) as (-> & -> & -> & _).
    destruct (track_circuit_fields st2 c id) as (-> & -> & -> & _).
    by rewrite H1, H2, H3.
  - destruct (process_not_circuit st1 line E) as (-> & -> & ->).
    destruct (process_not_circuit st2 line E) as (-> & -> & ->).
    by rewrite H1, H2, H3.
Qed.

Lemma circuit_part_other st line :
  is_circuit_line line = false → circuit_part (process_line st line) = circuit_part st.
Proof.
  unfold is_circuit_line, circuit_part.
  destruct (circuit_of line) eqn:E; [done|]. intros _.
  by destruct (process_not_circuit st line E) as (-> & -> & ->).
Qed.

Lemma circuit_part_run st1 st2 lines :
  circuit_part st1 = circuit_part st2 →
  circuit_part (run st1 lines)
  = circuit_part (run st2 (List.filter is_circuit_line lines)).
Proof.
  revert st1 st2. induction lines as [|x l IH]; intros st1 st2 H; [done|].
  rewrite list_filter_cons. destruct (is_circuit_line x) eqn:E.
  - rewrite !run_cons. by apply IH, circuit_part_step.
  - rewrite run_cons. apply IH. by rewrite circuit_part_other.
Qed.

Lemma epoch_part_circuit st line :
  is_circuit_line line = true → epoch_part (process_line st line) = epoch_part st.
Proof.
  unfold is_circuit_line, epoch_part.
  destruct (circuit_of line) as [[c id]|] eqn:E; [|done]. intros _.
  rewrite (process_circuit _ _ _ _ E).
  by destruct (track_circuit_fields st c id) as (_ & _ & _ & -> & -> & ->).
Qed.

Lemma epoch_part_step st1 st2 line :
  is_circuit_line line = false → epoch_part st1 = epoch_part st2 →
  epoch_part (process_line st1 line) = epoch_part (process_line st2 line).
Proof.
  unfold is_circuit_line, circuit_of, is_marker, matched, epoch_part, process_line, flush.
  intros Hl [= H1 H2 H3].
  destruct (search patterns.epoch line); simpl in *; [by rewrite H1, H2, H3|].
  destruct (search patterns.relay_stats line); simpl in *; [by rewrite H1, H2, H3|].
  destruct (search patterns.adv_stats line); simpl in *; [by rewrite H1, H2, H3|].
  destruct (search patterns.circuit line); [done|]. by rewrite H1, H2, H3.
Qed.

Lemma epoch_part_run st1 st2 lines :
  epoch_part st1 = epoch_part st2 →
  epoch_part (run st1 lines)
  = epoch_part (run st2 (List.filter (λ l, negb (is_circuit_line l)) lines)).
Proof.
  revert st1 st2. induction lines as [|x l IH]; intros st1 st2 H; [done|].
  rewrite list_filter_cons. destruct (is_circuit_line x) eqn:E; simpl negb; cbv iota.
  - rewrite run_cons. apply IH. by rewrite epoch_part_circuit.
  - rewrite !run_cons. by apply IH, epoch_part_step.
Qed.

End Independence.

(** X5.  The circuit statistics and the relay statistics do not depend on
    each other's lines: the seven circuit and client fields of the result
    are those of the log's circuit-usage lines alone, and the stored
    snapshots are those of the log without its circuit-usage lines. *)
Theorem circuits_and_epochs_independent (lines : list string) :
  let r := analyze_torfs_output lines in
  let rc := analyze_torfs_output (List.filter is_circuit_line lines) in
  let re := analyze_torfs_output (List.filter (λ l, negb (is_circuit_line l)) lines) in
  total_circuits r = total_circuits rc
  ∧ compromised_circuits r = compromised_circuits rc
  ∧ circuit_counts r = circuit_counts rc
  ∧ total_clients r = total_clients rc
  ∧ compromised_clients r = compromised_clients rc
  ∧ client_counts r = client_counts rc
  ∧ res_client_exposures r = res_client_exposures rc
  ∧ res_epoch_data r = res_epoch_data re.
Proof.
  simpl.
  pose proof (circuit_part_run initial_state initial_state lines eq_refl) as Hc.
  pose proof (epoch_part_run initial_state initial_state lines eq_refl) as He.
  unfold circuit_part in Hc. unfold epoch_part in He.
  injection Hc as -> -> ->. injection He as He1 He2 He3.
  repeat split; try done. unfold flush. by rewrite He1, He2, He3.
Qed.

(** ** Clients per compromise type *)

Section ClientCounts.

Lemma get0_count_from (tr : list comp_type) d v :
  get0 (fold_left (λ d t, incr t d) tr d) v
  = (get0 d v + length (filter (λ t, t = v) tr))%nat.
Proof.
  revert d. induction tr as [|t tr IH]; intros d; simpl; [lia|].
  rewrite IH, get0_incr, filter_cons. repeat case_decide; simpl; try done; lia.
Qed.

Lemma sum_values_count_from (tr : list comp_type) d :
  sum_values (fold_left (λ d t, incr t d) tr d) = (sum_values d + length tr)%nat.
Proof.
  revert d. induction tr as [|t tr IH]; intros d; simpl; [lia|].
  rewrite IH, sum_values_incr. lia.
Qed.

Lemma occurrences_NoDup (l : list comp_type) v :
  NoDup l → length (filter (λ t, t = v) l) = if decide (v ∈ l) then 1%nat else 0%nat.
Proof.
  induction 1 as [|x l Hx _ IH].
  - rewrite decide_False; [done | by intros ?%elem_of_nil].
  - rewrite filter_cons. destruct (decide (x = v)) as [->|Hne].
    + simpl. rewrite IH. rewrite decide_False by done.
      rewrite decide_True; [done | set_solver].
    + rewrite IH. destruct (decide (v ∈ l)).
      * rewrite decide_True; [done | set_solver].
      * rewrite decide_False; [done | set_solver].
Qed.

Lemma mjoin_cons {A} (x : list A) (l : list (list A)) :
  mjoin (x :: l) = x ++ mjoin l.
Proof. done. Qed.

Lemma occurrences_traversal (sets : list (gset comp_type)) v :
  length (filter (λ t, t = v) (mjoin (elements <$> sets)))
  = length (filter (λ X : gset comp_type, v ∈ X) sets).
Proof.
  induction sets as [|X sets IH]; [done|].
  rewrite fmap_cons, mjoin_cons, filter_app, length_app, IH, filter_cons.
  rewrite occurrences_NoDup by apply NoDup_elements.
  destruct (decide (v ∈ X)).
  - rewrite decide_True by (by apply elem_of_elements). done.
  - rewrite decide_False by (by rewrite elem_of_elements). done.
Qed.

Lemma length_traversal_ge (sets : list (gset comp_type)) :
  Forall (λ X, X ≠ ∅) sets →
  (length sets ≤ length (mjoin (elements <$> sets)))%nat.
Proof.
  induction 1 as [|X sets HX _ IH]; [done|].
  rewrite fmap_cons, mjoin_cons, length_app. simpl.
  assert (length (elements X) ≠ 0)%nat; [|lia].
  intros H0. apply HX. apply leibniz_equiv, size_empty_iff. exact H0.
Qed.

Lemma length_traversal_le (sets : list (gset comp_type)) n :
  Forall (λ X, size X ≤ n)%nat sets →
  (length (mjoin (elements <$> sets)) ≤ n * length sets)%nat.
Proof.
  induction 1 as [|X sets HX _ IH]; [simpl; lia|].
  rewrite fmap_cons, mjoin_cons, length_app. simpl.
  change (length (elements X)) with (size X). lia.
Qed.

(** The exposure sets of a finished run: none is empty, none holds the
    all-false vector. *)
Lemma run_exposure_sets lines c X :
  client_exposures (run initial_state lines) !! c = Some X →
  X ≠ ∅ ∧ (false, false, false) ∉ X.
Proof.
  intros HX. destruct (run_client_exposures lines) as [Hin Hkey].
  simpl in Hin, Hkey. split.
  - destruct (proj1 (Hkey c)) as [v Hv]; [by rewrite HX|].
    apply Hin in Hv. rewrite HX in Hv. simpl in Hv. set_solver.
  - intros Hf. assert (He : exposed lines c (false, false, false)).
    { apply Hin. by rewrite HX. }
    destruct He as (i & x & id & _ & _ & Hcomp & Hv & _).
    apply compromised_vector in Hv. congruence.
Qed.

Lemma size_no_none (X : gset comp_type) :
  (false, false, false) ∉ X → (size X ≤ 7)%nat.
Proof.
  intros Hf.
  assert (Hsub : X ⊆ list_to_set all_combinations).
  { intros [[[] []] []] Hv; unfold all_combinations; set_solver. }
  apply subseteq_size in Hsub. etrans; [exact Hsub|].
  vm_compute. lia.
Qed.

Lemma run_exposure_values lines :
  Forall (λ X : gset comp_type, X ≠ ∅ ∧ (false, false, false) ∉ X)
    (map_to_list (client_exposures (run initial_state lines))).*2.
Proof.
  apply Forall_forall. intros X ([c X'] & -> & Hin%elem_of_map_to_list)%list_elem_of_fmap.
  simpl. by apply (run_exposure_sets lines c).
Qed.

Lemma exposed_to_none (sets : list (gset comp_type)) v :
  Forall (λ X : gset comp_type, v ∉ X) sets →
  length (filter (λ X : gset comp_type, v ∈ X) sets) = 0%nat.
Proof.
  induction 1 as [|X l HX _ IH]; [done|].
  by rewrite filter_cons, decide_False.
Qed.

Lemma sum_list_cons (x : nat) (l : list nat) :
  sum_list (x :: l) = (x + sum_list l)%nat.
Proof. done. Qed.

Lemma client_counts_count_clients_none lines :
  get0 (client_counts (analyze_torfs_output lines)) (false, false, false) = 0%nat.
Proof.
  simpl. unfold count_types. rewrite get0_count_from.
  unfold traversal. rewrite occurrences_traversal.
  rewrite exposed_to_none; [unfold get0; by rewrite lookup_empty|].
  eapply Forall_impl; [apply run_exposure_values|]. by intros X [_ ?].
Qed.

End ClientCounts.

(** X6.  [client_counts] counts clients, not circuits: the count of a
    compromise type is the number of clients whose exposure set holds it;
    it never exceeds the number of compromised clients, and the all-false
    type is never counted. *)
Theorem client_counts_count_clients (lines : list string) (v : comp_type) :
  let r := analyze_torfs_output lines in
  get0 (client_counts r) v = exposed_to (res_client_exposures r) v
  ∧ (get0 (client_counts r) v ≤ compromised_clients r)%nat
  ∧ get0 (client_counts r) (false, false, false) = 0%nat.
Proof.
  simpl. set (d := client_exposures (run initial_state lines)).
  assert (Hcount : ∀ u, get0 (count_types (traversal d)) u = exposed_to d u).
  { intros u. unfold count_types. rewrite get0_count_from.
    unfold traversal, exposed_to. rewrite occurrences_traversal.
    unfold get0. by rewrite lookup_empty. }
  split; [apply Hcount|]. split.
  - rewrite Hcount. unfold exposed_to. etrans; [apply length_filter|].
    by rewrite length_fmap, length_map_to_list.
  - apply (client_counts_count_clients_none lines).
Qed.

(** X7.  Summed over the seven types of the breakdown, the client counts
    are at least the number of compromised clients, since every exposed
    client counts under one type or more, and at most seven times that
    number. *)
Theorem client_counts_sum_bounds (lines : list string) :
  let r := analyze_torfs_output lines in
  let total := sum_list (get0 (client_counts r) <$> all_combinations) in
  (compromised_clients r ≤ total)%nat ∧ (total ≤ 7 * compromised_clients r)%nat.
Proof.
  intros r total.
  assert (Hnone : get0 (client_counts r) (false, false, false) = 0%nat).
  { apply (client_counts_count_clients_none lines). }
  assert (Htotal : total = sum_values (client_counts r)).
  { rewrite sum_values_sum_over. unfold sum_over, all_vectors.
    by rewrite fmap_cons, sum_list_cons, Hnone. }
  rewrite Htotal. subst r. simpl. unfold count_types.
  rewrite sum_values_count_from.
  change (sum_values ∅) with 0%nat. simpl. unfold traversal.
  set (d := client_exposures (run initial_state lines)).
  pose proof (run_exposure_values lines) as Hall. fold d in Hall.
  rewrite <- (length_map_to_list d), <- (length_fmap snd (map_to_list d)). split.
  - apply length_traversal_ge. eapply Forall_impl; [exact Hall|]. by intros X [? _].
  - apply (length_traversal_le (map_to_list d).*2 7).
    eapply Forall_impl; [exact Hall|].
    intros X [_ ?]. by apply size_no_none.
Qed.

(** ** How the counts compare *)

Section Chain.

Lemma size_add_exposure (c : N) (v : comp_type) (d : gmap N (gset comp_type)) :
  (size (add_exposure c v d) ≤ S (size d))%nat ∧ add_exposure c v d ≠ ∅.
Proof.
  unfold add_exposure. split; [|apply insert_non_empty].
  destruct (d !! c) eqn:E.
  - rewrite map_size_insert_Some by done. lia.
  - rewrite map_size_insert_None by done. lia.
Qed.

(** Every exposed client owes its exposure to a tallied circuit. *)
Lemma run_clients_le_tallies lines :
  let st := run initial_state lines in
  (size (client_exposures st) ≤ sum_values (circuits_compromised st))%nat
  ∧ (0 < sum_values (circuits_compromised st) → client_exposures st ≠ ∅).
Proof.
  induction lines as [|x l [IH1 IH2]] using rev_ind.
  - simpl. split; [by rewrite map_size_empty; lia|].
    change (sum_values ∅) with 0%nat. lia.
  - rewrite run_snoc. simpl in *. set (st := run initial_state l) in *.
    destruct (circuit_of x) as [[c id]|] eqn:E.
    + rewrite (process_circuit _ _ _ _ E).
      destruct (track_circuit_fields st c id) as (_ & -> & -> & _).
      destruct (compromised id && bool_decide (id ∉ all_circuits st)); [|done].
      rewrite sum_values_incr.
      destruct (size_add_exposure c (vector id) (client_exposures st)) as [Hs Hne].
      split; [lia | done].
    + by destruct (process_not_circuit st x E) as (_ & -> & ->).
Qed.

Lemma size_list_to_set_le (l : list circuit_id) :
  (size (list_to_set l : gset circuit_id) ≤ length l)%nat.
Proof.
  induction l as [|x l IH]; [vm_compute; lia|].
  change (list_to_set (x :: l) : gset circuit_id)
    with ({[x]} ∪ (list_to_set l : gset circuit_id)).
  rewrite size_union_alt, size_singleton. simpl.
  assert (size (list_to_set l ∖ {[x]} : gset circuit_id)
          ≤ size (list_to_set l : gset circuit_id))%nat; [|lia].
  apply subseteq_size. set_solver.
Qed.

End Chain.

(** X8.  The counts of a result are ordered: there are at most as many
    compromised clients as compromised circuits, at most as many
    compromised circuits as distinct circuits, and at most as many
    distinct circuits as circuit-usage lines in the log. *)
Theorem counts_are_ordered (lines : list string) :
  let r := analyze_torfs_output lines in
  (compromised_clients r ≤ compromised_circuits r)%nat
  ∧ (compromised_circuits r ≤ total_circuits r)%nat
  ∧ (total_circuits r ≤ length (omap circuit_of lines))%nat.
Proof.
  simpl. split; [apply run_clients_le_tallies|]. split.
  - destruct (run_tallies lines) as [_ Hsum]. simpl in Hsum.
    rewrite Hsum, run_all_circuits, (size_filter_split (identities lines)). lia.
  - rewrite run_all_circuits. unfold identities.
    etrans; [apply size_list_to_set_le|]. by rewrite length_fmap.
Qed.

(** ** When the renderer raises *)

Section Raises.

Lemma int_div_defined a b : b ≠ 0%Z → int_div a b = inr (Qmake a (Z.to_pos b)).
Proof. unfold int_div. by destruct (Z.eqb_spec b 0). Qed.

Lemma int_div_zero a : int_div a 0 = inl ZeroDivisionError.
Proof. done. Qed.


Lemma breakdown_defined unit d whole combos :
  whole ≠ 0%Z → ∃ rows, breakdown unit d whole combos = inr rows.
Proof.
  intros Hw. induction combos as [|combo combos [rows IH]]; simpl; [by eexists|].
  destruct (0 <? get0 d combo)%nat; [|by eexists].
  rewrite int_div_defined, IH by done. simpl. by eexists.
Qed.


Lemma client_section_raises r :
  client_section r = inl ZeroDivisionError ↔ total_clients r = 0%N.
Proof.
  split.
  - intros H. destruct (decide (total_clients r = 0%N)) as [|Hne]; [done|].
    exfalso. unfold client_section in H. cbv zeta in H.
    rewrite (int_div_defined _ (Z.of_N (total_clients r))) in H by lia.
    destruct (Z.ltb_spec 0 (Z.of_nat (compromised_clients r))); [|done].
    destruct (breakdown_defined " clients" (client_counts r)
                (Z.of_N (total_clients r)) all_combinations) as [rows Hr]; [lia|].
    rewrite Hr in H.
    destruct (Z.ltb_spec 0 (Z.of_nat (multi_exposure (res_client_exposures r))));
      [|done].
    rewrite int_div_defined in H by lia. done.
  - intros H. unfold client_section. by rewrite H.
Qed.



Lemma generate_report_raises_sections r :
  generate_report r = inl ZeroDivisionError ↔
  circuit_section r = inl ZeroDivisionError
  ∨ client_section r = inl ZeroDivisionError
  ∨ relay_section r = inl ZeroDivisionError.
Proof.
  unfold generate_report.
  unfold mbind, result_bind.
  destruct (circuit_section r) as [[]|c]; [split; [auto | done]|].
  destruct (client_section r) as [[]|cl]; [split; [auto | done]|].
  destruct (relay_section r) as [[]|rl]; [split; [auto | done]|].
  split; [done | by intros [?|[?|?]]].
Qed.

End Raises.


(** X10.  A log in which no circuit is compromised has no report: the
    analysis counts no client, and the renderer raises on the share of
    compromised clients (or before, when the log has no circuit at
    all). *)
Theorem no_compromise_no_report (lines : list string) :
  compromised_circuits (analyze_torfs_output lines) = 0%nat →
  total_clients (analyze_torfs_output lines) = 0%N
  ∧ generate_report (analyze_torfs_output lines) = inl ZeroDivisionError.
Proof.
  intros H0.
  assert (Hc : total_clients (analyze_torfs_output lines) = 0%N).
  { simpl in *. destruct (run_clients_le_tallies lines) as [Hle _]. simpl in Hle.
    rewrite H0 in Hle. rewrite decide_True; [done|].
    apply map_size_empty_iff. lia. }
  split; [done|]. apply generate_report_raises_sections.
  right. left. by apply client_section_raises.
Qed.

Lemma no_compromise_no_report_witness :
  let lines :=
    ["Client 3 uses the following circuit for a stream request: G1 M1 X1";
     "Client 4 uses the following circuit for a stream request: G2 M1 X1"] in
  total_clients (analyze_torfs_output lines) = 0%N
  ∧ generate_report (analyze_torfs_output lines) = inl ZeroDivisionError.
Proof.
  intros lines. apply (no_compromise_no_report lines). vm_compute. reflexivity.
Defined.

(** ** What the result holds *)

(** X11.  The circuit fields of the result count distinct identities:
    [total_circuits] is the number of distinct identities on the
    circuit-usage lines, [compromised_circuits] the number of those with
    the marker in some position, and the tally of a compromise type the
    number of those with that type. *)
Theorem circuit_fields_count_identities (lines : list string) (v : comp_type) :
  let r := analyze_torfs_output lines in
  total_circuits r = size (identities lines)
  ∧ compromised_circuits r
    = size (filter (λ id, compromised id = true) (identities lines))
  ∧ get0 (circuit_counts r) v
    = size (filter (λ id, compromised id = true ∧ vector id = v) (identities lines)).
Proof.
  simpl. destruct (run_tallies lines) as [Hvec Hsum].
  split; [by rewrite run_all_circuits|]. split; [apply Hsum | apply Hvec].
Qed.

(** X12.  The exposure mapping of the result holds, for each client, the
    compromise types of the compromised circuits first seen on a line of
    that client, and nothing else; a client is a key of the mapping
    exactly when there is such a line, so no key maps to the empty set. *)
Theorem exposures_are_first_seen (lines : list string) (c : N) :
  let d := res_client_exposures (analyze_torfs_output lines) in
  (∀ v, v ∈ default ∅ (d !! c) ↔ exposed lines c v)
  ∧ (is_Some (d !! c) ↔ ∃ v, exposed lines c v)
  ∧ d !! c ≠ Some ∅.
Proof.
  simpl. destruct (run_client_exposures lines) as [Hin Hkey]. simpl in Hin, Hkey.
  split; [apply Hin|]. split; [apply Hkey|].
  intros HX. by destruct (run_exposure_sets lines c ∅ HX).
Qed.

(** ** Replaying lines *)

Section Replay.

Lemma run_known_circuits st lines :
  identities lines ⊆ all_circuits st →
  circuit_part (run st lines) = circuit_part st.
Proof.
  revert st. induction lines as [|x l IH]; intros st Hsub; [done|].
  rewrite run_cons.
  assert (Hl : identities l ⊆ all_circuits st).
  { etrans; [|exact Hsub]. change (x :: l) with ([x] ++ l).
    rewrite identities_app. set_solver. }
  destruct (circuit_of x) as [[c id]|] eqn:E.
  - rewrite (process_circuit _ _ _ _ E), track_circuit_known; [by apply IH|].
    apply Hsub. by eapply identities_cons_elem.
  - rewrite IH.
    + by apply circuit_part_other; unfold is_circuit_line; rewrite E.
    + by destruct (process_not_circuit st x E) as (-> & _).
Qed.

End Replay.

(** X13.  Lines that bring no new circuit identity change no circuit or
    client field: when every identity of [more] occurs in [lines], the
    analysis of [lines ++ more] has the circuit and client fields of the
    analysis of [lines].  In particular a log read twice in a row counts
    as read once. *)
Theorem known_circuits_add_nothing (lines more : list string) :
  identities more ⊆ identities lines →
  let r := analyze_torfs_output (lines ++ more) in
  let r0 := analyze_torfs_output lines in
  total_circuits r = total_circuits r0
  ∧ compromised_circuits r = compromised_circuits r0
  ∧ circuit_counts r = circuit_counts r0
  ∧ total_clients r = total_clients r0
  ∧ compromised_clients r = compromised_clients r0
  ∧ client_counts r = client_counts r0
  ∧ res_client_exposures r = res_client_exposures r0.
Proof.
  intros Hsub. simpl. rewrite run_app.
  pose proof (run_known_circuits (run initial_state lines) more) as H.
  rewrite run_all_circuits in H. specialize (H Hsub).
  unfold circuit_part in H. injection H as -> -> ->. done.
Qed.

Lemma known_circuits_add_nothing_witness :
  let r := analyze_torfs_output (scenario_B ++ scenario_B) in
  let r0 := analyze_torfs_output scenario_B in
  total_circuits r = total_circuits r0
  ∧ compromised_circuits r = compromised_circuits r0
  ∧ circuit_counts r = circuit_counts r0
  ∧ total_clients r = total_clients r0
  ∧ compromised_clients r = compromised_clients r0
  ∧ client_counts r = client_counts r0
  ∧ res_client_exposures r = res_client_exposures r0.
Proof.
  apply (known_circuits_add_nothing scenario_B scenario_B).
  intros id Hid. exact Hid.
Defined.

(** ** What a stored snapshot holds *)

Section Snapshots.

Lemma run_no_markers st lines :
  Forall (λ l, is_marker l = false) lines →
  epoch_data (run st lines) = epoch_data st
  ∧ current_epoch (run st lines) = current_epoch st.
Proof.
  intros H. revert st. induction H as [|x l Hx _ IH]; intros st; [done|].
  rewrite run_cons. destruct (IH (process_line st x)) as [-> ->].
  by apply process_not_marker.
Qed.

Lemma process_line_keeps_totals st x :
  is_relay_count x = false →
  total_relays (relay_stats (process_line st x)) = total_relays (relay_stats st)
  ∧ total_guards (relay_stats (process_line st x)) = total_guards (relay_stats st)
  ∧ total_exits (relay_stats (process_line st x)) = total_exits (relay_stats st).
Proof.
  unfold is_relay_count, is_marker, matched, process_line.
  destruct (search patterns.epoch x); [done|].
  destruct (search patterns.relay_stats x); [done|].
  destruct (search patterns.adv_stats x); [done|].
  destruct (search patterns.circuit x); [|done]. intros _.
  by destruct (track_circuit_fields st (int (group l 1))
                 (group l 2, group l 3, group l 4)) as (_ & _ & _ & _ & _ & ->).
Qed.

Lemma process_line_keeps_adv st x :
  is_adv_count x = false →
  adv_guards (relay_stats (process_line st x)) = adv_guards (relay_stats st)
  ∧ adv_exits (relay_stats (process_line st x)) = adv_exits (relay_stats st).
Proof.
  unfold is_adv_count, is_marker, matched, process_line.
  destruct (search patterns.epoch x); [done|].
  destruct (search patterns.relay_stats x); [done|].
  destruct (search patterns.adv_stats x); [done|].
  destruct (search patterns.circuit x); [|done]. intros _.
  by destruct (track_circuit_fields st (int (group l 1))
                 (group l 2, group l 3, group l 4)) as (_ & _ & _ & _ & _ & ->).
Qed.

Lemma run_keeps_totals st lines :
  Forall (λ x, is_relay_count x = false) lines →
  total_relays (relay_stats (run st lines)) = total_relays (relay_stats st)
  ∧ total_guards (relay_stats (run st lines)) = total_guards (relay_stats st)
  ∧ total_exits (relay_stats (run st lines)) = total_exits (relay_stats st).
Proof.
  intros H. revert st. induction H as [|x l Hx _ IH]; intros st; [done|].
  rewrite run_cons. destruct (IH (process_line st x)) as (-> & -> & ->).
  by apply process_line_keeps_totals.
Qed.

Lemma run_keeps_adv st lines :
  Forall (λ x, is_adv_count x = false) lines →
  adv_guards (relay_stats (run st lines)) = adv_guards (relay_stats st)
  ∧ adv_exits (relay_stats (run st lines)) = adv_exits (relay_stats st).
Proof.
  intros H. revert st. induction H as [|x l Hx _ IH]; intros st; [done|].
  rewrite run_cons. destruct (IH (process_line st x)) as (-> & ->).
  by apply process_line_keeps_adv.
Qed.

End Snapshots.

(** X14.  The snapshot stored for an epoch is the running snapshot at the
    moment the epoch is closed, by the next marker or by the end of the
    input: for a marker [m] followed by lines [span] without a marker, it
    is the running snapshot after [span], and it is stored at the
    position of [m] among the markers. *)
Theorem stored_snapshot_is_running (before : list string) (m : string)
    (span rest : list string) :
  is_marker m = true → Forall (λ l, is_marker l = false) span →
  closes_span rest →
  res_epoch_data (analyze_torfs_output (before ++ m :: span ++ rest))
    !! markers before
  = Some (relay_stats (run initial_state (before ++ m :: span))).
Proof.
  intros Hm Hspan Hrest.
  change (res_epoch_data (analyze_torfs_output (before ++ m :: span ++ rest)))
    with (flush (run initial_state (before ++ m :: span ++ rest))).
  rewrite !run_app, !run_cons, run_app.
  set (st1 := run initial_state before).
  set (st2 := process_line st1 m).
  set (st3 := run st2 span).
  assert (H2 : length (epoch_data st2) = markers before
               ∧ truthy (current_epoch st2) = true).
  { subst st2. rewrite (process_marker _ _ Hm). simpl.
    split; [|by apply marker_truthy]. apply flush_length. }
  destruct H2 as [Hlen2 Htr2].
  destruct (run_no_markers st2 span Hspan) as [Hed3 Hce3]. fold st3 in Hed3, Hce3.
  assert (Hflush3 : flush st3 = epoch_data st2 ++ [relay_stats st3]).
  { unfold flush. by rewrite Hce3, Htr2, Hed3. }
  assert (Hfinal : ∃ more,
            flush (run st3 rest) = epoch_data st2 ++ [relay_stats st3] ++ more).
  { destruct Hrest as [-> | (m' & rest' & -> & Hm')].
    - exists []. by rewrite app_nil_r.
    - rewrite run_cons.
      destruct (flush_run_prefix (process_line st3 m') rest') as [more ->].
      rewrite (process_marker _ _ Hm'). simpl. rewrite Hflush3.
      exists more. by rewrite <- app_assoc. }
  destruct Hfinal as [more ->].
  rewrite lookup_app_r by lia.
  replace (markers before - length (epoch_data st2))%nat with 0%nat by lia. done.
Qed.

Lemma stored_snapshot_is_running_witness :
  let before := firstn 3 scenario_D in
  let m := "[01:00] Entering simulation epoch with consensus from 2020-01-02" in
  let span := skipn 4 scenario_D in
  res_epoch_data (analyze_torfs_output (before ++ m :: span ++ [])) !! markers before
  = Some (relay_stats (run initial_state (before ++ m :: span))).
Proof.
  intros before m span.
  apply (stored_snapshot_is_running before m span []).
  - vm_compute. reflexivity.
  - repeat constructor; vm_compute; reflexivity.
  - left. reflexivity.
Defined.

(** X15.  The last count line wins: after a relay-count line and any
    lines that are not relay-count lines, the three totals of the running
    snapshot are the integers of that line; after an adversary-count line
    and any lines that are not adversary-count lines, the two adversary
    counts are the integers of that line. *)
Theorem last_count_line_wins (st : state) (before : list string) (l : string)
    (m : list string) (after : list string) :
  let rs := relay_stats (run st (before ++ l :: after)) in
  (is_marker l = false → search patterns.relay_stats l = Some m →
   Forall (λ x, is_relay_count x = false) after →
   total_relays rs = int (group m 1) ∧ total_guards rs = int (group m 2)
   ∧ total_exits rs = int (group m 3))
  ∧ (is_marker l = false → search patterns.relay_stats l = None →
     search patterns.adv_stats l = Some m →
     Forall (λ x, is_adv_count x = false) after →
     adv_guards rs = int (group m 1) ∧ adv_exits rs = int (group m 2)).
Proof.
  simpl. rewrite run_app, run_cons. set (st1 := run st before). split.
  - intros Hm Hr Hafter.
    destruct (run_keeps_totals (process_line st1 l) after Hafter) as (-> & -> & ->).
    unfold is_marker, process_line in *.
    destruct (search patterns.epoch l); [done|]. by rewrite Hr.
  - intros Hm Hr Ha Hafter.
    destruct (run_keeps_adv (process_line st1 l) after Hafter) as (-> & ->).
    unfold is_marker, process_line in *.
    destruct (search patterns.epoch l); [done|]. by rewrite Hr, Ha.
Qed.

Lemma last_count_line_wins_witness :
  let l :=
    "Total relays in consensus: 6100, Valid/Running Guards: 2100, Valid/Running Exits: 950" in
  let after := ["Total adversary guard relays: 3, Total adversary exit relays: 1"] in
  let rs := relay_stats (run initial_state (firstn 4 scenario_D ++ l :: after)) in
  total_relays rs = int (group ["6100"; "2100"; "950"] 1)
  ∧ total_guards rs = int (group ["6100"; "2100"; "950"] 2)
  ∧ total_exits rs = int (group ["6100"; "2100"; "950"] 3).
Proof.
  intros l after.
  apply (proj1 (last_count_line_wins initial_state (firstn 4 scenario_D) l
                  ["6100"; "2100"; "950"] after)).
  - vm_compute. reflexivity.
  - vm_compute. reflexivity.
  - repeat constructor; vm_compute; reflexivity.
Defined.

(** ** Names of the compromise types *)

(** X16.  The names of the compromise types tell them apart: two types
    have the same name only if they are the same type, the name "none"
    belongs to the all-false type alone, and the breakdowns list, once
    each, exactly the seven types with another name. *)
Theorem describe_compromise_names (v1 v2 : comp_type) :
  (describe_compromise v1 = describe_compromise v2 ↔ v1 = v2)
  ∧ (describe_compromise v1 = "none" ↔ v1 = (false, false, false))
  ∧ (v1 ∈ all_combinations ↔ describe_compromise v1 ≠ "none")
  ∧ NoDup all_combinations.
Proof.
  split; [|split; [|split]].
  - split; [|by intros ->].
    destruct v1 as [[[] []] []], v2 as [[[] []] []]; vm_compute; congruence.
  - destruct v1 as [[[] []] []]; vm_compute; split; congruence.
  - unfold all_combinations.
    destruct v1 as [[[] []] []]; split; try (vm_compute; congruence);
      try (intros _; set_solver).
    intros Hin. exfalso. set_solver.
  - unfold all_combinations. repeat (apply NoDup_cons; split; [set_solver|]).
    apply NoDup_nil_2.
Qed.

(** ** Shares of the circuit breakdown *)

Section Shares.




End Shares.



(** ** The open epoch *)

(** X18.  An epoch is open exactly from the first marker on: before it
    [current_epoch] is false and nothing is stored; from then on
    [current_epoch] is a true value, whatever white space the marker lines
    hold, and the loop has stored one snapshot fewer than it has seen
    markers. *)
Theorem epoch_open_after_first_marker (lines : list string) :
  let st := run initial_state lines in
  truthy (current_epoch st) = (0 <? markers lines)%nat
  ∧ length (epoch_data st) = (markers lines - 1)%nat.
Proof.
  simpl. destruct (run_epoch_state lines) as [H0 H1].
  destruct (markers lines) as [|k] eqn:Hk.
  - destruct H0 as [-> ->]; done.
  - destruct H1 as [-> Hlen]; [lia|]. split; [done | lia].
Qed.

(** ** The shares of the circuit and the client section *)

Section ProperShares.

Lemma shares_cons row rows : shares (row :: rows) = percents row ++ shares rows.
Proof. done. Qed.

Lemma shares_app rows1 rows2 : shares (rows1 ++ rows2) = shares rows1 ++ shares rows2.
Proof. unfold shares. by rewrite fmap_app, join_app. Qed.

Lemma proper_share_make (a b : Z) :
  (0 ≤ a)%Z → (a ≤ b)%Z → (0 < b)%Z → proper_share (Qmake a (Z.to_pos b)).
Proof.
  intros Ha Hab Hb. unfold proper_share, Qle. cbn [Qnum Qden].
  rewrite Z2Pos.id by lia. lia.
Qed.

Lemma breakdown_proper unit d whole combos rows :
  (0 < whole)%Z → (∀ v, Z.of_nat (get0 d v) ≤ whole)%Z →
  breakdown unit d whole combos = inr rows →
  Forall proper_share (shares rows).
Proof.
  intros Hw Hle. revert rows.
  induction combos as [|combo combos IH]; intros rows; cbn [breakdown].
  - intros [= <-]. constructor.
  - destruct (0 <? get0 d combo)%nat; [|apply IH].
    rewrite int_div_defined by lia.
    destruct (breakdown unit d whole combos) as [[]|rows']; [done|].
    intros [= <-]. rewrite shares_cons. apply Forall_app. split; [|by apply IH].
    repeat constructor; apply proper_share_make; (lia || apply Hle).
Qed.

Lemma get0_le_sum_values d v : (get0 d v ≤ sum_values d)%nat.
Proof.
  rewrite sum_values_sum_over. unfold sum_over.
  apply (sum_list_with_in _ id). apply list_elem_of_fmap.
  exists v. split; [done|]. unfold all_vectors, all_combinations.
  destruct v as [[[] []] []]; set_solver.
Qed.

Lemma multi_exposure_le (d : gmap N (gset comp_type)) :
  (multi_exposure d ≤ size d)%nat.
Proof.
  unfold multi_exposure. etrans; [apply length_filter|].
  by rewrite length_fmap, length_map_to_list.
Qed.

End ProperShares.

(** X19.  Every share printed in the circuit section and in the client
    section of a report lies between 0% and 100%: the share of compromised
    circuits, the rows of the two breakdowns and the share of clients with
    several exposure types. *)
Theorem circuit_and_client_shares_proper (lines : list string) :
  let r := analyze_torfs_output lines in
  match circuit_section r with
  | inr rows => Forall proper_share (shares rows)
  | inl _ => True
  end
  ∧ match client_section r with
    | inr rows => Forall proper_share (shares rows)
    | inl _ => True
    end.
Proof.
  intros r.
  assert (Hcc : (compromised_circuits r ≤ total_circuits r)%nat).
  { subst r. simpl. destruct (run_tallies lines) as [_ Hsum]. simpl in Hsum.
    rewrite Hsum, run_all_circuits, (size_filter_split (identities lines)). lia. }
  assert (Hcl : (N.of_nat (compromised_clients r) ≤ total_clients r)%N).
  { subst r. simpl. case_decide as Hd; [|apply size_le_max_key].
    rewrite Hd, map_size_empty. lia. }
  assert (Hcnt : ∀ v, (get0 (client_counts r) v ≤ compromised_clients r)%nat).
  { intros v. subst r. simpl. unfold count_types. rewrite get0_count_from.
    unfold traversal. rewrite occurrences_traversal.
    unfold get0 at 1. rewrite lookup_empty. simpl.
    etrans; [apply length_filter|]. by rewrite length_fmap, length_map_to_list. }
  split.
  - unfold circuit_section. cbv zeta.
    destruct (decide (total_circuits r = 0%nat)) as [H0|H0]; [by rewrite H0|].
    rewrite int_div_defined by lia.
    assert (Hs : proper_share (Qmake (Z.of_nat (compromised_circuits r))
                                 (Z.to_pos (Z.of_nat (total_circuits r)))))
      by (apply proper_share_make; lia).
    destruct (Z.ltb_spec 0 (Z.of_nat (compromised_circuits r))) as [Hpos|Hle].
    + destruct (breakdown " circuits" (circuit_counts r)
                  (Z.of_nat (compromised_circuits r)) all_combinations)
        as [[]|rows] eqn:Hb; [done|].
      apply breakdown_proper in Hb; [|done|].
      * cbn [mbind result_bind mret result_ret]. rewrite !shares_cons. simpl.
        constructor; [exact Hs | exact Hb].
      * intros v. pose proof (get0_le_sum_values (circuit_counts r) v) as Hv.
        change (sum_values (circuit_counts r)) with (compromised_circuits r) in Hv.
        lia.
    + cbn [mbind result_bind mret result_ret]. rewrite !shares_cons. simpl.
      constructor; [exact Hs | constructor].
  - unfold client_section. cbv zeta.
    destruct (decide (total_clients r = 0%N)) as [H0|H0]; [by rewrite H0|].
    rewrite (int_div_defined _ (Z.of_N (total_clients r))) by lia.
    assert (Hs : proper_share (Qmake (Z.of_nat (compromised_clients r))
                                 (Z.to_pos (Z.of_N (total_clients r)))))
      by (apply proper_share_make; lia).
    destruct (Z.ltb_spec 0 (Z.of_nat (compromised_clients r))) as [Hpos|Hle].
    + destruct (breakdown " clients" (client_counts r)
                  (Z.of_N (total_clients r)) all_combinations)
        as [[]|rows] eqn:Hb; [done|].
      apply breakdown_proper in Hb; [|lia|].
      2:{ intros v. specialize (Hcnt v). lia. }
      pose proof (multi_exposure_le (res_client_exposures r)) as Hm.
      change (size (res_client_exposures r)) with (compromised_clients r) in Hm.
      destruct (Z.ltb_spec 0 (Z.of_nat (multi_exposure (res_client_exposures r)))).
      * rewrite int_div_defined by lia.
        assert (Hq : proper_share
                  (Qmake (Z.of_nat (multi_exposure (res_client_exposures r)))
                     (Z.to_pos (Z.of_nat (compromised_clients r)))))
          by (apply proper_share_make; lia).
        cbn [mbind result_bind mret result_ret].
        rewrite !shares_cons, shares_app, shares_cons. simpl.
        constructor; [exact Hs|]. apply Forall_app. split; [exact Hb|].
        constructor; [exact Hq | constructor].
      * cbn [mbind result_bind mret result_ret].
        rewrite !shares_cons, shares_app. simpl.
        constructor; [exact Hs|]. apply Forall_app. split; [exact Hb | constructor].
    + cbn [mbind result_bind mret result_ret]. rewrite !shares_cons. simpl.
      constructor; [exact Hs | constructor].
Qed.
